(** * Sparkify ETL notebook (src/etl.ipynb): aggregation, batch loading, teardown

    A shallow embedding of the code cells of the notebook.

    - Part I, "Aggregate CSV creation": the rows that [csv.reader] yields for
      every discovered file are filtered on [row[10] == "NextSong"], projected
      and written with a [csv.writer] configured with [QUOTE_ALL].
    - Part II, "Run the process": the aggregate file is read in chunks of
      [CHUNK_SIZE] rows; three inserts per row are added to one shared
      [BatchStatement], which is executed once per chunk.
    - "Drop the tables" and "Close the session".

    Python's [str] is modelled by [string] (the UTF-8 bytes), [int] counters
    by [nat], exceptions by an explicit outcome type that keeps the state
    reached when the exception was raised. *)

From Stdlib Require Import String Ascii Bool Arith Lia List.
From Stdlib Require Import Permutation.
Import ListNotations.
Local Open Scope string_scope.
Local Open Scope list_scope.

Set Implicit Arguments.

(* ================================================================== *)
(** ** Exceptions and outcomes *)

Inductive exn : Type :=
| IndexError      (* list index out of range *)
| StopIteration.  (* next() on an exhausted iterator *)

(** The result of running a block of statements from a state: either the
    block runs to its end, or an exception escapes it; in both cases the
    state (counters, bytes already written) is the one reached so far. *)
Inductive outcome (S : Type) : Type :=
| Returned (s : S)
| Raised (e : exn) (s : S).

Arguments Returned {S} s.
Arguments Raised {S} e s.

Definition bind {S : Type} (o : outcome S) (k : S -> outcome S) : outcome S :=
  match o with
  | Returned s => k s
  | Raised e s => Raised e s
  end.

Notation "'do' x <- o ;; k" := (bind o (fun x => k))
  (at level 10, x name, o at level 100, k at level 200).

Definition final_state {S : Type} (o : outcome S) : S :=
  match o with
  | Returned s => s
  | Raised _ s => s
  end.

Definition returns {S : Type} (o : outcome S) : bool :=
  match o with
  | Returned _ => true
  | Raised _ _ => false
  end.

(* ================================================================== *)
(** ** The csv writer, [quoting=csv.QUOTE_ALL], default (excel) dialect *)

Module Csv.

Definition quotechar : ascii := ascii_of_nat 34.
Definition delimiter : ascii := ascii_of_nat 44.
Definition CR : ascii := ascii_of_nat 13.
Definition LF : ascii := ascii_of_nat 10.

Definition lineterminator : string := String CR (String LF EmptyString).

(** [doublequote=True]: a quote character inside a field is written twice. *)
Fixpoint escape (field : string) : string :=
  match field with
  | EmptyString => EmptyString
  | String c rest =>
      if Ascii.eqb c quotechar
      then String quotechar (String quotechar (escape rest))
      else String c (escape rest)
  end.

(** [QUOTE_ALL]: every field is written between two quote characters. *)
Definition quote_field (field : string) : string :=
  String quotechar (escape field ++ String quotechar EmptyString).

Fixpoint join_fields (fields : list string) : string :=
  match fields with
  | [] => EmptyString
  | [f] => quote_field f
  | f :: rest => quote_field f ++ String delimiter (join_fields rest)
  end.

(** The bytes one [writer.writerow(fields)] call appends to the file. *)
Definition format_row (fields : list string) : string :=
  join_fields fields ++ lineterminator.

(** The bytes of a file made of the given records, in order. *)
Fixpoint format_rows (rows : list (list string)) : string :=
  match rows with
  | [] => EmptyString
  | r :: rest => format_row r ++ format_rows rest
  end.

(** Whether the next byte is a quote character. *)
Definition starts_with_quote (s : string) : bool :=
  match s with
  | String c _ => Ascii.eqb c quotechar
  | EmptyString => false
  end.

(** The rest of a record after its first field. *)
Fixpoint more_fields (fields : list string) : string :=
  match fields with
  | [] => lineterminator
  | f :: rest => String delimiter (quote_field f ++ more_fields rest)
  end.

End Csv.

(* ================================================================== *)
(** ** Part I: aggregate CSV creation *)

(** A row as [csv.reader] yields it: a Python list of [str]. *)
Definition row : Type := list string.

(** A raw CSV file, as the sequence of rows [csv.reader] yields over it;
    a file with no line at all is the empty sequence. *)
Definition csv_file : Type := list row.

Definition sentinel : string := "NextSong".

Definition header : list string :=
  [ "artist_name"; "user_first_name"; "item_in_session"; "user_last_name";
    "song_length"; "session_id"; "song_title"; "user_id" ].

(** [row[i]] for a constant, non-negative [i]: [None] stands for IndexError. *)
Definition getitem (r : row) (i : nat) : option string := nth_error r i.

Notation "'let?' x ':=' o 'in' k" :=
  (match o with Some x => k | None => None end)
  (at level 10, x name, o at level 100, k at level 200).

(** The tuple passed to [writer.writerow] in the "NextSong" branch; its
    components are evaluated left to right. *)
Definition project (r : row) : option (list string) :=
  let? c0 := getitem r 0 in
  let? c2 := getitem r 2 in
  let? c4 := getitem r 4 in
  let? c5 := getitem r 5 in
  let? c6 := getitem r 6 in
  let? c12 := getitem r 12 in
  let? c13 := getitem r 13 in
  let? c16 := getitem r 16 in
  Some [c0; c2; c4; c5; c6; c12; c13; c16].

(** The variables of the cell: the two counters and the bytes written so far
    to [OUTPUT_CSV]. *)
Record agg_state : Type := mkAgg {
  read : nat;
  written : nat;
  output_file : string
}.

Definition writerow (st : agg_state) (fields : list string) : agg_state :=
  mkAgg (read st) (written st) (output_file st ++ Csv.format_row fields).

(** [open(OUTPUT_CSV, "w", ...)]: whatever the file held before is dropped. *)
Definition open_w (previous : option string) : string := EmptyString.

(** The body of [for row in reader]. *)
Definition process_row (st : agg_state) (r : row) : outcome agg_state :=
  let st1 := mkAgg (S (read st)) (written st) (output_file st) in
  match getitem r 10 with
  | None => Raised IndexError st1
  | Some event =>
      if String.eqb event sentinel then
        match project r with
        | None => Raised IndexError st1
        | Some fields =>
            let st2 := writerow st1 fields in
            Returned (mkAgg (read st2) (S (written st2)) (output_file st2))
        end
      else Returned st1
  end.

Fixpoint process_rows (st : agg_state) (rows : list row) : outcome agg_state :=
  match rows with
  | [] => Returned st
  | r :: rest => do st' <- process_row st r ;; process_rows st' rest
  end.

(** The body of [for path in glob.glob(...)]: [next(reader)] skips the
    header, then the remaining rows are iterated. *)
Definition process_file (st : agg_state) (f : csv_file) : outcome agg_state :=
  match f with
  | [] => Raised StopIteration st
  | _header :: rows => process_rows st rows
  end.

Fixpoint process_files (st : agg_state) (files : list csv_file)
  : outcome agg_state :=
  match files with
  | [] => Returned st
  | f :: rest => do st' <- process_file st f ;; process_files st' rest
  end.

(** The whole cell up to the final [print]. [previous] is the content of
    [OUTPUT_CSV] before the run ([None]: no such file), [files] the
    discovered files in the order [glob.glob] returns them. *)
Definition aggregate (previous : option string) (files : list csv_file)
  : outcome agg_state :=
  let st0 := mkAgg 0 0 (open_w previous) in
  let st1 := writerow st0 header in
  process_files st1 files.

(** The three numbers of the final [print], reached only when no exception
    escaped the loops: Read, Written, Discarded. *)
Definition counters (o : outcome agg_state) : option (nat * nat * nat) :=
  match o with
  | Returned st => Some (read st, written st, read st - written st)
  | Raised _ _ => None
  end.

(** *** Specification-side notions for the aggregator *)

(** The data rows of the input: every row but the first of every file. *)
Definition data_rows (files : list csv_file) : list row :=
  concat (map (@tl row) files).

(** [row[10] == "NextSong"], false when the row has no field 10. *)
Definition qualifies (r : row) : bool :=
  match getitem r 10 with
  | Some event => String.eqb event sentinel
  | None => false
  end.

(** The row makes [process_row] raise IndexError: index 10 is out of range,
    or the row qualifies and index 16 is. *)
Definition row_raises (r : row) : bool :=
  match getitem r 10 with
  | None => true
  | Some event => String.eqb event sentinel && Nat.ltb (length r) 17
  end.

(** The file has a first line and none of its data rows raises. *)
Definition file_ok (f : csv_file) : bool :=
  match f with
  | [] => false
  | _ :: rows => forallb (fun r => negb (row_raises r)) rows
  end.

Definition inputs_ok (files : list csv_file) : bool := forallb file_ok files.

(** The projection of a row that has all referenced positions. *)
Definition projection (r : row) : list string :=
  map (fun i => nth i r EmptyString) [0; 2; 4; 5; 6; 12; 13; 16].

(** The state after a row that is counted and skipped. *)
Definition after_read (st : agg_state) : agg_state :=
  mkAgg (S (read st)) (written st) (output_file st).

(** The state after a row that is counted and written. *)
Definition after_write (st : agg_state) (fields : list string) : agg_state :=
  mkAgg (S (read st)) (S (written st))
        (output_file st ++ Csv.format_row fields).

(** The state after a sequence of rows none of which raises. *)
Definition after_rows (st : agg_state) (rows : list row) : agg_state :=
  mkAgg (read st + length rows)
        (written st + length (filter qualifies rows))
        (output_file st ++ Csv.format_rows (map projection (filter qualifies rows))).

(** None of the rows raises. *)
Definition rows_ok (rows : list row) : bool :=
  forallb (fun r => negb (row_raises r)) rows.

(** *** Sample inputs *)

Definition raw_header : row :=
  [ "artist"; "auth"; "firstName"; "gender"; "itemInSession"; "lastName";
    "length"; "level"; "location"; "method"; "page"; "registration";
    "sessionId"; "song"; "status"; "ts"; "userId" ].

Definition song_row : row :=
  [ "Des'ree"; "Logged In"; "Kaylee"; "F"; "1"; "Summers"; "246.30812";
    "free"; "Phoenix-Mesa-Scottsdale, AZ"; "PUT"; "NextSong"; "1.54034E+12";
    "139"; "You Gotta Be"; "200"; "1.54111E+12"; "8" ].

Definition home_row : row :=
  [ ""; "Logged In"; "Kaylee"; "F"; "0"; "Summers"; ""; "free";
    "Phoenix-Mesa-Scottsdale, AZ"; "GET"; "Home"; "1.54034E+12"; "139"; "";
    "200"; "1.54111E+12"; "8" ].

(** Eleven fields only, and not a song event. *)
Definition short_login_row : row :=
  [ ""; "Logged Out"; ""; ""; "0"; ""; ""; "free"; ""; "PUT"; "Login" ].

(** Eleven fields only, and a song event. *)
Definition short_song_row : row :=
  [ "Des'ree"; "Logged In"; "Kaylee"; "F"; "1"; "Summers"; "246.30812";
    "free"; "Phoenix-Mesa-Scottsdale, AZ"; "PUT"; "NextSong" ].

Definition sample_file : csv_file := [raw_header; song_row; home_row; song_row].

(* ================================================================== *)
(** ** Part II: batch loading of the aggregate file *)

(** The size of the chunks in which the CSV files will be loaded. *)
Definition CHUNK_SIZE : nat := 100.

(** The columns of the aggregate file, named by its header. *)
Inductive column : Type :=
| artist_name | user_first_name | item_in_session | user_last_name
| song_length | session_id | song_title | user_id.

(** A cell of a frame, named by the text it has in the aggregate file. What
    the data-frame reader makes of that text (an integer, a float, a missing
    value) is not modelled; whether the driver can bind the resulting value
    is a parameter of the loader, [binds] below. *)
Definition value : Type := string.

(** One data row of the aggregate file, as [df.iterrows()] yields it. *)
Record event : Type := mkEvent {
  ev_artist_name : value;
  ev_user_first_name : value;
  ev_item_in_session : value;
  ev_user_last_name : value;
  ev_song_length : value;
  ev_session_id : value;
  ev_song_title : value;
  ev_user_id : value
}.

Definition cell (r : event) (c : column) : value :=
  match c with
  | artist_name => ev_artist_name r
  | user_first_name => ev_user_first_name r
  | item_in_session => ev_item_in_session r
  | user_last_name => ev_user_last_name r
  | song_length => ev_song_length r
  | session_id => ev_session_id r
  | song_title => ev_song_title r
  | user_id => ev_user_id r
  end.

Inductive table : Type := songs_by_session | songs_by_user | users_by_song.

Definition songs_by_session_columns : list column :=
  [session_id; item_in_session; artist_name; song_title; song_length].

Definition songs_by_user_columns : list column :=
  [user_id; session_id; item_in_session; artist_name; song_title;
   user_first_name; user_last_name].

Definition users_by_song_columns : list column :=
  [song_title; user_id; user_first_name; user_last_name].

(** [row[columns].values.tolist()] *)
Definition select (r : event) (columns : list column) : list value :=
  map (cell r) columns.

(** An entry of a [BatchStatement]: the prepared insert of a table, bound
    to its parameters. *)
Definition statement : Type := (table * list value)%type.

(** What [session.execute] does with a batch: it returns, or raises an
    exception whose text is given. *)
Inductive exec_result : Type :=
| ExecOk
| ExecError (text : string).

Definition failed (r : exec_result) : bool :=
  match r with ExecOk => false | ExecError _ => true end.

(** The variables of the "Run the process" cell, the batches that
    [session.execute] received so far (oldest first), and the lines
    printed. *)
Record load_state : Type := mkLoad {
  batches : nat;
  records : nat;
  batch : list statement;
  executed : list (list statement);
  stdout : list string
}.

(** What a [batch.add(query, params)] that returns does to the batch: the
    statement is appended. The call itself, which can raise, is [batch_add]
    below. *)
Definition batch_append (st : load_state) (query : table) (params : list value)
  : load_state :=
  mkLoad (batches st) (records st) (batch st ++ [(query, params)])
         (executed st) (stdout st).

(** The three statements added for one row, in the order they are added. *)
Definition inserts_of (r : event) : list statement :=
  [ (songs_by_session, select r songs_by_session_columns);
    (songs_by_user, select r songs_by_user_columns);
    (users_by_song, select r users_by_song_columns) ].

(** The statements added for the rows of a chunk. *)
Definition inserts (df : list event) : list statement :=
  concat (map inserts_of df).

(** The body of [for _, row in df.iterrows()] when none of its three
    [batch.add] calls raises. *)
Definition add_row (st : load_state) (r : event) : load_state :=
  let st1 := batch_append st songs_by_session (select r songs_by_session_columns) in
  let st2 := batch_append st1 songs_by_user (select r songs_by_user_columns) in
  let st3 := batch_append st2 users_by_song (select r users_by_song_columns) in
  mkLoad (batches st3) (records st3 + 3) (batch st3) (executed st3) (stdout st3).

(** The rows [l] in consecutive slices of [size] rows, the last one possibly
    shorter. Every slice takes at least one row when [size] is positive, so
    [length l] slices are enough: [fuel] bounds their number. *)
Fixpoint chunks_fuel (A : Type) (fuel size : nat) (l : list A) : list (list A) :=
  match fuel with
  | 0 => []
  | S fuel' =>
      match l with
      | [] => []
      | _ :: _ => firstn size l :: chunks_fuel fuel' size (skipn size l)
      end
  end.

(** The frames that iterating [pd.read_csv(path, chunksize=size)] yields
    over a file made of a header line and the data rows [l]: the slices of
    [size] rows. The reader (an external library) never skips its first
    chunk: over a file that has a header and no data row it yields one
    frame with no row, and then stops. *)
Definition read_csv (A : Type) (size : nat) (l : list A) : list (list A) :=
  match l with
  | [] => [[]]
  | _ :: _ => chunks_fuel (length l) size l
  end.

(** The lines the [except] branch prints for a failed submission. *)
Definition failure_report (r : exec_result) : list string :=
  match r with
  | ExecOk => []
  | ExecError text => ["Error while processing a batch statement"; text]
  end.

Definition succeeded (r : exec_result) : bool := negb (failed r).

Section Loader.

(** The store's answer to the [call]-th [session.execute] (counted from 0)
    of the given batch: any pattern of failures is a choice of this
    function. *)
Variable session_execute : nat -> list statement -> exec_result.

(** The body of [for df in pd.read_csv(...)] when no [batch.add] raises: the
    rows of the chunk are added to the shared batch, the batch is executed,
    and only the [else] branch of the [try] clears it and counts it. *)
Definition process_chunk (st : load_state) (df : list event) : load_state :=
  let st1 := fold_left add_row df st in
  let call := length (executed st1) in
  let sent := executed st1 ++ [batch st1] in
  match session_execute call (batch st1) with
  | ExecError text =>
      mkLoad (batches st1) (records st1) (batch st1) sent
             (stdout st1 ++ ["Error while processing a batch statement"; text])
  | ExecOk =>
      mkLoad (S (batches st1)) (records st1) [] sent (stdout st1)
  end.

Definition load_chunks (st : load_state) (dfs : list (list event))
  : load_state :=
  fold_left process_chunk dfs st.

(** The whole cell up to the final [print], on the data rows of the
    aggregate file, when no [batch.add] raises. The cell with the exceptions
    of [batch.add] is [run_load], below. *)
Definition load (rows : list event) : load_state :=
  load_chunks (mkLoad 0 0 [] [] []) (read_csv CHUNK_SIZE rows).

(** The answers the store gave to the submissions, oldest first. *)
Fixpoint outcomes_from (call : nat) (sent : list (list statement))
  : list exec_result :=
  match sent with
  | [] => []
  | b :: rest => session_execute call b :: outcomes_from (S call) rest
  end.

Definition outcomes (st : load_state) : list exec_result :=
  outcomes_from 0 (executed st).

(** The batch a chunk submits and the store's answer to it. *)
Definition submitted (st : load_state) (df : list event) : list statement :=
  batch st ++ inserts df.

Definition answer (st : load_state) (df : list event) : exec_result :=
  session_execute (length (executed st)) (submitted st df).

(** What the cell keeps true from one chunk to the next. *)
Record consistent (st : load_state) : Prop := {
  batches_are_successes :
    batches st = length (filter succeeded (outcomes st));
  stdout_is_failures :
    stdout st = flat_map failure_report (outcomes st)
}.

End Loader.

(** The two numbers of the final [print]: Batches, Records. *)
Definition metrics (st : load_state) : nat * nat := (batches st, records st).

(** ceil(n / size) for a positive [size]. *)
Definition ceil_div (n size : nat) : nat := (n + (size - 1)) / size.

(** *** Sample inputs *)

Definition sample_event : event :=
  mkEvent "Des'ree" "Kaylee" "1" "Summers" "246.30812" "139" "You Gotta Be" "8".

Definition other_event : event :=
  mkEvent "Mr Oizo" "Kaylee" "3" "Summers" "144.03873" "139" "Flat 55" "8".

(** A store that rejects the first submission only. *)
Definition fail_first (call : nat) (b : list statement) : exec_result :=
  if Nat.eqb call 0 then ExecError "Batch too large" else ExecOk.

(** A store that rejects every submission. *)
Definition fail_always (call : nat) (b : list statement) : exec_result :=
  ExecError "Unable to connect to any servers".

(* ================================================================== *)
(** ** Dropping the tables and closing the session *)

Definition table_eqb (a b : table) : bool :=
  match a, b with
  | songs_by_session, songs_by_session => true
  | songs_by_user, songs_by_user => true
  | users_by_song, users_by_song => true
  | _, _ => false
  end.

(** The part of the cluster the last two cells act on: the tables that exist
    in the keyspace, whether session and cluster are still open, the
    [DROP TABLE] statements the session received, and the lines printed. *)
Record store : Type := mkStore {
  tables : list table;
  session_open : bool;
  cluster_open : bool;
  drops_received : list table;
  printed : list string
}.

Definition exists_table (s : store) (t : table) : bool :=
  existsb (table_eqb t) (tables s).

(** [session.execute("DROP TABLE t")]: the statement has no [IF EXISTS], so
    the store rejects it when the table does not exist. *)
Definition execute_drop (s : store) (t : table) : store * exec_result :=
  let received := drops_received s ++ [t] in
  if exists_table s t then
    (mkStore (filter (fun u => negb (table_eqb t u)) (tables s))
             (session_open s) (cluster_open s) received (printed s),
     ExecOk)
  else
    (mkStore (tables s) (session_open s) (cluster_open s) received (printed s),
     ExecError "unconfigured table").

(** The statements of one [try] block, run until the first one raises. *)
Fixpoint run_drops (s : store) (ts : list table) : store * exec_result :=
  match ts with
  | [] => (s, ExecOk)
  | t :: rest =>
      match execute_drop s t with
      | (s', ExecOk) => run_drops s' rest
      | (s', ExecError text) => (s', ExecError text)
      end
  end.

Definition all_tables : list table :=
  [songs_by_session; songs_by_user; users_by_song].

(** The "Drop the tables" cell: one [try] around the three statements. *)
Definition drop_tables (s : store) : store :=
  match run_drops s all_tables with
  | (s', ExecOk) => s'
  | (s', ExecError text) =>
      mkStore (tables s') (session_open s') (cluster_open s') (drops_received s')
              (printed s' ++ ["Error while dropping the table"; text])
  end.

(** The "Close the session" cell. *)
Definition close_session (s : store) : store :=
  let s1 := mkStore (tables s) false (cluster_open s) (drops_received s) (printed s) in
  mkStore (tables s1) (session_open s1) false (drops_received s1) (printed s1).

Definition teardown (s : store) : store := close_session (drop_tables s).

(** Evaluates the comparisons of two given tables. *)
Ltac eval_table_eqb :=
  repeat match goal with
         | |- context [table_eqb ?a ?b] =>
             let v := eval compute in (table_eqb a b) in
             match v with
             | true => change (table_eqb a b) with true
             | false => change (table_eqb a b) with false
             end
         end.

Definition drop_report : list string :=
  ["Error while dropping the table"; "unconfigured table"].

(** A keyspace in which the first table was never created. *)
Definition first_table_missing : store :=
  mkStore [songs_by_user; users_by_song] true true [] [].

Definition all_created : store :=
  mkStore [songs_by_session; songs_by_user; users_by_song] true true [] [].

(* ================================================================== *)
(** ** Batch loading, with the exceptions of [batch.add] *)

(** The three [batch.add] calls of a row are outside the [try]: what they
    raise ends the cell. *)
Inductive add_error : Type :=
| BindError   (* the prepared statement cannot bind a parameter *)
| BatchFull.  (* ValueError: the batch holds 65535 statements already *)

(** The cell reaches its final [print], or an exception of [batch.add]
    escapes it; in both cases with the state reached so far. *)
Inductive load_result : Type :=
| Completed (st : load_state)
| Crashed (e : add_error) (st : load_state).

Definition ended_in (r : load_result) : load_state :=
  match r with
  | Completed st => st
  | Crashed _ st => st
  end.

Definition and_then (r : load_result) (k : load_state -> load_result)
  : load_result :=
  match r with
  | Completed st => k st
  | Crashed e st => Crashed e st
  end.

(** The largest number of statements a [BatchStatement] takes: 0xFFFF,
    that is 65535 = 255 * 257. *)
Definition BATCH_LIMIT : nat := 255 * 257.

(** The try/except/else of the cell: the batch is executed; a failure is
    printed; only a success empties the batch and counts it. *)
Definition submit (session_execute : nat -> list statement -> exec_result)
           (st1 : load_state) : load_state :=
  let call := length (executed st1) in
  let sent := executed st1 ++ [batch st1] in
  match session_execute call (batch st1) with
  | ExecError text =>
      mkLoad (batches st1) (records st1) (batch st1) sent
             (stdout st1 ++ ["Error while processing a batch statement"; text])
  | ExecOk =>
      mkLoad (S (batches st1)) (records st1) [] sent (stdout st1)
  end.

Section Driver.

(** Whether the prepared insert of a table can bind the given parameters.
    This is the driver's decision on the values the data-frame reader
    yields; it is a parameter of the cell. *)
Variable binds : table -> list value -> bool.

Variable session_execute : nat -> list statement -> exec_result.

(** [batch.add(query, params)]: the parameters are bound first, then the
    statement is appended unless the batch is full. *)
Definition batch_add (st : load_state) (query : table)
           (params : list value) : load_result :=
  if binds query params then
    if Nat.leb BATCH_LIMIT (length (batch st)) then Crashed BatchFull st
    else Completed (batch_append st query params)
  else Crashed BindError st.

(** The body of [for _, row in df.iterrows()]. *)
Definition run_add_row (st : load_state) (r : event) : load_result :=
  and_then (batch_add st songs_by_session
                          (select r songs_by_session_columns)) (fun st1 =>
  and_then (batch_add st1 songs_by_user
                          (select r songs_by_user_columns)) (fun st2 =>
  and_then (batch_add st2 users_by_song
                          (select r users_by_song_columns)) (fun st3 =>
  Completed (mkLoad (batches st3) (records st3 + 3) (batch st3)
                    (executed st3) (stdout st3))))).

Fixpoint run_add_rows (st : load_state) (df : list event) : load_result :=
  match df with
  | [] => Completed st
  | r :: rest => and_then (run_add_row st r) (fun st' => run_add_rows st' rest)
  end.

(** The body of [for df in pd.read_csv(...)]. *)
Definition run_chunk (st : load_state) (df : list event) : load_result :=
  and_then (run_add_rows st df) (fun st1 => Completed (submit session_execute st1)).

Fixpoint run_chunks (st : load_state) (dfs : list (list event)) : load_result :=
  match dfs with
  | [] => Completed st
  | df :: rest => and_then (run_chunk st df) (fun st' => run_chunks st' rest)
  end.

(** The whole cell up to the final [print], on the data rows of the
    aggregate file. *)
Definition run_load (rows : list event) : load_result :=
  run_chunks (mkLoad 0 0 [] [] []) (read_csv CHUNK_SIZE rows).

(** The three inserts of the row can be bound. *)
Definition row_binds (r : event) : bool :=
  forallb (fun s : statement => binds (fst s) (snd s)) (inserts_of r).

End Driver.

(** No batch that the cell submits has to hold more than [BATCH_LIMIT]
    statements. *)
Definition within_batch_limit
           (session_execute : nat -> list statement -> exec_result)
           (rows : list event) : Prop :=
  Forall (fun b : list statement => length b <= BATCH_LIMIT)
         (executed (load session_execute rows)).

(** The number of leading windows whose inserts fit into a batch that holds
    [held] statements and is never emptied. *)
Fixpoint fitting (held : nat) (dfs : list (list event)) : nat :=
  match dfs with
  | [] => 0
  | df :: rest =>
      if Nat.leb (held + 3 * length df) BATCH_LIMIT
      then S (fitting (held + 3 * length df) rest)
      else 0
  end.

(** A driver that binds every value. *)
Definition bind_all (query : table) (params : list value) : bool := true.

(** A driver that cannot bind a cell without text where one is expected (the
    data-frame reader yields such a cell as a missing number). *)
Definition bind_text (query : table) (params : list value) : bool :=
  negb (existsb (String.eqb EmptyString) params).



(** A field between two quote characters, as it is. *)
Definition in_quotes (field : string) : string :=
  String "034" (field ++ String "034" EmptyString).

(** The field contains no quote character. *)
Fixpoint quote_free (field : string) : bool :=
  match field with
  | EmptyString => true
  | String c rest => negb (Ascii.eqb c "034") && quote_free rest
  end.

(** The bytes of a record of eight quote-free fields, written out. *)
Definition plain_line (c0 c2 c4 c5 c6 c12 c13 c16 : string) : string :=
  (in_quotes c0 ++ "," ++ in_quotes c2 ++ "," ++ in_quotes c4 ++ ","
   ++ in_quotes c5 ++ "," ++ in_quotes c6 ++ "," ++ in_quotes c12 ++ ","
   ++ in_quotes c13 ++ "," ++ in_quotes c16
   ++ String "013" (String "010" EmptyString))%string.

(** The bytes of the field made of 7, a quote character and [, remix] in
    the output file: between quote characters, its own quote character
    written twice. *)
Definition quoted_title_bytes : string :=
  String "034" (String "7" (String "034" (String "034"
    (String "," (String " " (String "r" (String "e" (String "m" (String "i"
      (String "x" (String "034" EmptyString))))))))))).

(** A song row whose title holds a quote character and a comma. *)
Definition quoted_title_row : row :=
  [ "Des'ree"; "Logged In"; "Kaylee"; "F"; "1"; "Summers"; "246.30812";
    "free"; "Phoenix-Mesa-Scottsdale, AZ"; "PUT"; "NextSong"; "1.54034E+12";
    "139"; String "7" (String "034" ", remix");
    "200"; "1.54111E+12"; "8" ].

(* ================================================================== *)
(** ** Notions used to state further properties *)

(** *** Aggregation *)

(** The positions of a row that the aggregation cell reads. *)
Definition referenced : list nat := [0; 2; 4; 5; 6; 10; 12; 13; 16].

Definition same_referenced_fields (r r' : row) : Prop :=
  forall i, In i referenced -> getitem r i = getitem r' i.

(** The file with its first row changed by [g]; a file with no row has
    none to change. *)
Definition replace_header (g : row -> row) (f : csv_file) : csv_file :=
  match f with
  | [] => []
  | hd :: rows => g hd :: rows
  end.

(** What the counters and the output file have in common in every state
    of the cell: the file is the header record followed by as many records
    of eight fields as [written] counts, and no more rows were written than
    were read. *)
Definition consistent_output (st : agg_state) : Prop :=
  exists recs : list (list string),
    output_file st = Csv.format_rows (header :: recs)
    /\ length recs = written st
    /\ written st <= read st
    /\ Forall (fun rec => length rec = 8) recs.

(** The later state only added to the earlier one: bytes at the end of the
    file, units to the counters. *)
Definition extends (st st' : agg_state) : Prop :=
  (exists more : string, output_file st' = (output_file st ++ more)%string)
  /\ read st <= read st'
  /\ written st <= written st'.

(** A song row with other values in the positions that are not read, and
    three more fields at its end. *)
Definition song_row_other_fields : row :=
  [ "Des'ree"; "Logged Out"; "Kaylee"; "M"; "1"; "Summers"; "246.30812";
    "paid"; "Elsewhere"; "GET"; "NextSong"; "0"; "139"; "You Gotta Be";
    "404"; "0"; "8"; "extra"; "extra"; "extra" ].

(** *** Loading *)

(** The statements of the batches that the store accepted, oldest first. *)
Fixpoint accepted_from (session_execute : nat -> list statement -> exec_result)
         (call : nat) (sent : list (list statement)) : list statement :=
  match sent with
  | [] => []
  | b :: rest =>
      (if failed (session_execute call b) then [] else b)
        ++ accepted_from session_execute (S call) rest
  end.

Definition accepted (session_execute : nat -> list statement -> exec_result)
           (st : load_state) : list statement :=
  accepted_from session_execute 0 (executed st).

(** A store that accepts every submission. *)
Definition accept_all (call : nat) (b : list statement) : exec_result := ExecOk.

(** The columns each [CREATE TABLE] statement declares, in order. *)
Definition declared_columns (t : table) : list column :=
  match t with
  | songs_by_session =>
      [session_id; item_in_session; artist_name; song_title; song_length]
  | songs_by_user =>
      [user_id; session_id; item_in_session; artist_name; song_title;
       user_first_name; user_last_name]
  | users_by_song =>
      [song_title; user_id; user_first_name; user_last_name]
  end.

(** The columns of each [PRIMARY KEY], partition key first. *)
Definition primary_key (t : table) : list column :=
  match t with
  | songs_by_session => [session_id; item_in_session]
  | songs_by_user => [user_id; session_id; item_in_session]
  | users_by_song => [song_title; user_id]
  end.

(** The columns each prepared [INSERT INTO] names, in order, and the number
    of [?] markers of its [VALUES] list. *)
Definition insert_columns (t : table) : list column :=
  match t with
  | songs_by_session =>
      [session_id; item_in_session; artist_name; song_title; song_length]
  | songs_by_user =>
      [user_id; session_id; item_in_session; artist_name; song_title;
       user_first_name; user_last_name]
  | users_by_song =>
      [song_title; user_id; user_first_name; user_last_name]
  end.

Definition placeholders (t : table) : nat :=
  match t with
  | songs_by_session => 5
  | songs_by_user => 7
  | users_by_song => 4
  end.

(** *** Creating the tables *)

(** [session.execute("CREATE TABLE IF NOT EXISTS t (...)")]: the store adds
    the table unless it exists already, and accepts the statement in both
    cases. *)
Definition execute_create (s : store) (t : table) : store * exec_result :=
  if exists_table s t then (s, ExecOk)
  else (mkStore (tables s ++ [t]) (session_open s) (cluster_open s)
                (drops_received s) (printed s),
        ExecOk).

(** One "Table n" cell: the statement inside its own [try], the exception
    text printed by the [except] branch. *)
Definition create_table (s : store) (t : table) : store :=
  match execute_create s t with
  | (s', ExecOk) => s'
  | (s', ExecError text) =>
      mkStore (tables s') (session_open s') (cluster_open s')
              (drops_received s') (printed s' ++ [text])
  end.

(** The three cells, in the order of the notebook. *)
Definition create_tables (s : store) : store :=
  create_table (create_table (create_table s songs_by_session) songs_by_user)
               users_by_song.

(** The tables left when [t] is dropped from the list. *)
Definition without (t : table) (l : list table) : list table :=
  filter (fun u => negb (table_eqb t u)) l.

(** A keyspace in which only the last table exists. *)
Definition only_last_table : store :=
  mkStore [users_by_song] true true [] [].

(* ================================================================== *)
(** ** The test queries *)

(** A row of a result set: the selected columns with their values. *)
Definition result_row : Type := list (string * value).

(** What [session.execute] does with a query: it returns the rows of its
    result set, or raises an exception whose text is given. *)
Inductive query_answer : Type :=
| QueryOk (rs : list result_row)
| QueryError (text : string).

(** The names the test cells share: [rows] ([None] while nothing was ever
    assigned to it; otherwise the rows that iterating it yields), and the
    lines printed. *)
Record notebook : Type := mkNotebook {
  nb_rows : option (list result_row);
  nb_stdout : list string
}.

Inductive cell_error : Type :=
| NameError (name : string)
| AttributeError (attribute : string).

(** A cell runs to its end, or an exception escapes it. *)
Inductive cell_result : Type :=
| Done (nb : notebook)
| Failed (e : cell_error) (nb : notebook).

(** [row.a] *)
Fixpoint getattr (r : result_row) (a : string) : option value :=
  match r with
  | [] => None
  | (k, v) :: rest => if String.eqb k a then Some v else getattr rest a
  end.

(** The arguments of [format], evaluated left to right: their values, or the
    first attribute that the row does not have. *)
Fixpoint getattrs (r : result_row) (attributes : list string)
  : list value + string :=
  match attributes with
  | [] => inl []
  | a :: rest =>
      match getattr r a with
      | None => inr a
      | Some v =>
          match getattrs r rest with
          | inl vs => inl (v :: vs)
          | inr missing => inr missing
          end
      end
  end.

(** [for row in rows: print(template.format(row.a1, ..., row.an))] *)
Fixpoint print_rows (format : list value -> string) (attributes : list string)
         (rs : list result_row) (nb : notebook) : cell_result :=
  match rs with
  | [] => Done nb
  | r :: rest =>
      match getattrs r attributes with
      | inr missing => Failed (AttributeError missing) nb
      | inl vs =>
          print_rows format attributes rest
                     (mkNotebook (nb_rows nb) (nb_stdout nb ++ [format vs]))
      end
  end.

(** A test cell: the query inside a [try] that assigns [rows], an [except]
    branch that prints [banner] and the exception, then the loop over
    [rows], outside the [try]. *)
Definition test_cell (banner : list string) (format : list value -> string)
           (attributes : list string) (answer : query_answer) (nb : notebook)
  : cell_result :=
  let nb1 :=
    match answer with
    | QueryOk rs => mkNotebook (Some rs) (nb_stdout nb)
    | QueryError text =>
        mkNotebook (nb_rows nb) (nb_stdout nb ++ banner ++ [text])
    end in
  match nb_rows nb1 with
  | None => Failed (NameError "rows") nb1
  | Some rs => print_rows format attributes rs nb1
  end.

(** ["{} | {} | {}".format(a, b, c)] and the two other templates. *)
Definition format_1 (vs : list value) : string :=
  (nth 0 vs EmptyString ++ " | " ++ nth 1 vs EmptyString ++ " | "
   ++ nth 2 vs EmptyString)%string.

Definition format_2 (vs : list value) : string :=
  (nth 0 vs EmptyString ++ " | " ++ nth 1 vs EmptyString ++ " | "
   ++ nth 2 vs EmptyString ++ " " ++ nth 3 vs EmptyString)%string.

Definition format_3 (vs : list value) : string :=
  (nth 0 vs EmptyString ++ " " ++ nth 1 vs EmptyString)%string.

Definition test_1 : query_answer -> notebook -> cell_result :=
  test_cell [] format_1 ["artist_name"; "song_title"; "song_length"].

Definition test_2 : query_answer -> notebook -> cell_result :=
  test_cell [] format_2
            ["artist_name"; "song_title"; "user_first_name"; "user_last_name"].

Definition test_3 : query_answer -> notebook -> cell_result :=
  test_cell ["Error while initializing the database"] format_3
            ["user_first_name"; "user_last_name"].

(** The row has every attribute of the list. *)
Definition has_attributes (attributes : list string) (r : result_row) : Prop :=
  forall a, In a attributes -> getattr r a <> None.

(** The values of the attributes, the empty text for a missing one. *)
Definition values_of (attributes : list string) (r : result_row) : list value :=
  map (fun a => match getattr r a with Some v => v | None => EmptyString end)
      attributes.

Definition sample_result_row : result_row :=
  [ ("artist_name", "Faithless"); ("song_title", "Music Matters");
    ("song_length", "495.3073") ].

(* ================================================================== *)
(** * Properties *)

(** ** Strings *)

Lemma string_app_assoc (a b c : string) : ((a ++ b) ++ c = a ++ (b ++ c))%string.
Proof. induction a as [|x a IH]; simpl; [reflexivity | now rewrite IH]. Qed.

Lemma string_app_nil_r (a : string) : (a ++ EmptyString = a)%string.
Proof. induction a as [|x a IH]; simpl; [reflexivity | now rewrite IH]. Qed.

(** ** The writer: the bytes of a file determine its records *)

Module CsvFacts.
Import Csv.

(** What follows the opening quote of a field: the escaped content, the
    closing quote, and whatever comes next, which never starts with a
    quote. The content can be read back. *)
Lemma escape_unique (f1 f2 t1 t2 : string) :
  starts_with_quote t1 = false ->
  starts_with_quote t2 = false ->
  (escape f1 ++ String quotechar t1 = escape f2 ++ String quotechar t2)%string ->
  f1 = f2 /\ t1 = t2.
Proof.
  intros H1 H2. revert f2.
  induction f1 as [|c1 f1 IH]; intros [|c2 f2]; simpl.
  - intros E. injection E as E. now split.
  - destruct (Ascii.eqb_spec c2 quotechar) as [->|N]; simpl; intros E.
    + injection E as E. rewrite E in H1. unfold starts_with_quote in H1.
      rewrite Ascii.eqb_refl in H1. discriminate H1.
    + injection E as E _. congruence.
  - destruct (Ascii.eqb_spec c1 quotechar) as [->|N]; simpl; intros E.
    + injection E as E. rewrite <- E in H2. unfold starts_with_quote in H2.
      rewrite Ascii.eqb_refl in H2. discriminate H2.
    + injection E as E _. congruence.
  - destruct (Ascii.eqb_spec c1 quotechar) as [->|N1];
      destruct (Ascii.eqb_spec c2 quotechar) as [->|N2]; simpl; intros E.
    + injection E as E. destruct (IH _ E) as [-> ->]. now split.
    + injection E as E _. congruence.
    + injection E as E _. congruence.
    + injection E as Ec E. destruct (IH _ E) as [-> ->]. now subst.
Qed.

Lemma format_row_cons (f : string) (rest : list string) :
  format_row (f :: rest) = (quote_field f ++ more_fields rest)%string.
Proof.
  unfold format_row. revert f.
  induction rest as [|g rest IH]; intros f.
  - reflexivity.
  - change (join_fields (f :: g :: rest))
      with (quote_field f ++ String delimiter (join_fields (g :: rest)))%string.
    rewrite string_app_assoc. f_equal.
    change (String delimiter (join_fields (g :: rest) ++ lineterminator)
            = String delimiter (quote_field g ++ more_fields rest)).
    now rewrite IH.
Qed.

Lemma more_fields_no_quote (fields : list string) (x : string) :
  starts_with_quote (more_fields fields ++ x) = false.
Proof. destruct fields; reflexivity. Qed.

Lemma more_fields_unique (r1 r2 : list string) (x1 x2 : string) :
  (more_fields r1 ++ x1 = more_fields r2 ++ x2)%string ->
  r1 = r2 /\ x1 = x2.
Proof.
  revert r2. induction r1 as [|f1 r1 IH]; intros [|f2 r2]; simpl; intros E.
  - injection E as E. now split.
  - discriminate E.
  - discriminate E.
  - injection E as E. rewrite !string_app_assoc in E. simpl in E.
    apply escape_unique in E; try apply more_fields_no_quote.
    destruct E as [-> E]. destruct (IH _ E) as [-> ->]. now split.
Qed.

Lemma format_row_unique (r1 r2 : list string) (x1 x2 : string) :
  (format_row r1 ++ x1 = format_row r2 ++ x2)%string ->
  r1 = r2 /\ x1 = x2.
Proof.
  destruct r1 as [|f1 r1], r2 as [|f2 r2].
  - simpl. intros E. injection E as E. now split.
  - rewrite format_row_cons. discriminate.
  - rewrite format_row_cons. discriminate.
  - rewrite !format_row_cons. unfold quote_field. simpl.
    rewrite !string_app_assoc. simpl. intros E. injection E as E.
    apply escape_unique in E; try apply more_fields_no_quote.
    destruct E as [-> E]. apply more_fields_unique in E.
    destruct E as [-> ->]. now split.
Qed.

Lemma format_row_not_empty (r : list string) (x : string) :
  (format_row r ++ x)%string <> EmptyString.
Proof.
  destruct r as [|f r]; [discriminate|].
  rewrite format_row_cons. discriminate.
Qed.

(** Two sequences of records with the same bytes are the same sequence:
    the number of records of a file is well defined. *)
Lemma format_rows_inj (rows1 rows2 : list (list string)) :
  format_rows rows1 = format_rows rows2 -> rows1 = rows2.
Proof.
  revert rows2. induction rows1 as [|r1 rows1 IH]; intros [|r2 rows2]; simpl; intros E.
  - reflexivity.
  - symmetry in E. now apply format_row_not_empty in E.
  - now apply format_row_not_empty in E.
  - apply format_row_unique in E. destruct E as [-> E].
    now rewrite (IH _ E).
Qed.

Lemma format_rows_app (rows1 rows2 : list (list string)) :
  format_rows (rows1 ++ rows2) = (format_rows rows1 ++ format_rows rows2)%string.
Proof.
  induction rows1 as [|r rows1 IH]; simpl; [reflexivity|].
  now rewrite IH, string_app_assoc.
Qed.

End CsvFacts.

(** ** The aggregator: what one row, one file and one run do *)

Lemma project_spec (r : row) :
  project r = if Nat.ltb (length r) 17 then None else Some (projection r).
Proof.
  do 17 (destruct r as [|? r]; [reflexivity|]). reflexivity.
Qed.

Lemma process_row_spec (st : agg_state) (r : row) :
  process_row st r =
    if row_raises r then Raised IndexError (after_read st)
    else if qualifies r then Returned (after_write st (projection r))
    else Returned (after_read st).
Proof.
  unfold process_row, row_raises, qualifies.
  destruct (getitem r 10) as [event|]; [|reflexivity].
  destruct (String.eqb event sentinel); [|reflexivity].
  rewrite project_spec. simpl.
  destruct (Nat.ltb (length r) 17); reflexivity.
Qed.

Lemma after_rows_nil (st : agg_state) : after_rows st [] = st.
Proof.
  destruct st as [n w o]. unfold after_rows. simpl.
  now rewrite !Nat.add_0_r, string_app_nil_r.
Qed.

Lemma after_rows_app (st : agg_state) (rows1 rows2 : list row) :
  after_rows (after_rows st rows1) rows2 = after_rows st (rows1 ++ rows2).
Proof.
  unfold after_rows. simpl.
  rewrite filter_app, map_app, !length_app, CsvFacts.format_rows_app.
  rewrite string_app_assoc. f_equal; lia.
Qed.

Lemma after_rows_step (st : agg_state) (r : row) (rows : list row) :
  after_rows (if qualifies r then after_write st (projection r) else after_read st) rows
  = after_rows st (r :: rows).
Proof.
  unfold after_rows. simpl. destruct (qualifies r); simpl.
  - rewrite string_app_assoc. f_equal; lia.
  - f_equal; lia.
Qed.

Lemma process_rows_ok (rows : list row) (st : agg_state) :
  rows_ok rows = true ->
  process_rows st rows = Returned (after_rows st rows).
Proof.
  revert st. induction rows as [|r rows IH]; intros st H.
  - now rewrite after_rows_nil.
  - simpl in H. apply andb_true_iff in H. destruct H as [Hr H].
    apply negb_true_iff in Hr.
    simpl. rewrite process_row_spec, Hr.
    rewrite <- after_rows_step.
    destruct (qualifies r); simpl; now apply IH.
Qed.

Lemma process_rows_returns (rows : list row) (st : agg_state) :
  returns (process_rows st rows) = rows_ok rows.
Proof.
  revert st. induction rows as [|r rows IH]; intros st; [reflexivity|].
  simpl. rewrite process_row_spec.
  destruct (row_raises r); [reflexivity|].
  destruct (qualifies r); simpl; apply IH.
Qed.

Lemma process_rows_app (rows1 rows2 : list row) (st : agg_state) :
  process_rows st (rows1 ++ rows2)
  = do st' <- process_rows st rows1 ;; process_rows st' rows2.
Proof.
  revert st. induction rows1 as [|r rows1 IH]; intros st; [reflexivity|].
  simpl. destruct (process_row st r) as [s|e s]; simpl; [apply IH | reflexivity].
Qed.

Lemma process_files_app (files1 files2 : list csv_file) (st : agg_state) :
  process_files st (files1 ++ files2)
  = do st' <- process_files st files1 ;; process_files st' files2.
Proof.
  revert st. induction files1 as [|f files1 IH]; intros st; [reflexivity|].
  simpl. destruct (process_file st f) as [s|e s]; simpl; [apply IH | reflexivity].
Qed.

Lemma process_files_ok (files : list csv_file) (st : agg_state) :
  inputs_ok files = true ->
  process_files st files = Returned (after_rows st (data_rows files)).
Proof.
  revert st. induction files as [|f files IH]; intros st H.
  - now rewrite after_rows_nil.
  - simpl in H. apply andb_true_iff in H. destruct H as [Hf H].
    destruct f as [|hd rows]; [discriminate Hf|].
    simpl. rewrite (process_rows_ok _ _ Hf). simpl.
    rewrite (IH _ H). f_equal.
    unfold data_rows. simpl. apply after_rows_app.
Qed.

Lemma process_files_returns (files : list csv_file) (st : agg_state) :
  returns (process_files st files) = inputs_ok files.
Proof.
  revert st. induction files as [|f files IH]; intros st; [reflexivity|].
  simpl. destruct f as [|hd rows]; [reflexivity|].
  pose proof (process_rows_returns rows st) as E. unfold rows_ok in E.
  simpl. rewrite <- E.
  destruct (process_rows st rows) as [s|e s]; simpl; [apply IH | reflexivity].
Qed.

(** The run reaches its final [print] exactly on the inputs where every file
    has a first line and no data row raises. *)
Lemma aggregate_returns (previous : option string) (files : list csv_file) :
  returns (aggregate previous files) = inputs_ok files.
Proof. apply process_files_returns. Qed.

Lemma aggregate_ok (previous : option string) (files : list csv_file) :
  inputs_ok files = true ->
  aggregate previous files =
    Returned (mkAgg (length (data_rows files))
                    (length (filter qualifies (data_rows files)))
                    (Csv.format_rows
                       (header :: map projection (filter qualifies (data_rows files))))).
Proof.
  intros H. unfold aggregate. rewrite (process_files_ok _ _ H).
  reflexivity.
Qed.

(** Opening with mode "w": the run does not depend on the old content. *)
Lemma aggregate_truncates (previous1 previous2 : option string)
      (files : list csv_file) :
  aggregate previous1 files = aggregate previous2 files.
Proof. reflexivity. Qed.

(** An exception leaves the state reached by the rows and files before it. *)
Lemma process_files_raise_at (pre post : list csv_file) (hd : row)
      (rows1 rows2 : list row) (r : row) (st : agg_state) :
  inputs_ok pre = true -> rows_ok rows1 = true -> row_raises r = true ->
  process_files st (pre ++ (hd :: rows1 ++ r :: rows2) :: post)
  = Raised IndexError (after_read (after_rows st (data_rows pre ++ rows1))).
Proof.
  intros Hpre H1 Hr.
  rewrite process_files_app, (process_files_ok _ _ Hpre). simpl.
  rewrite process_rows_app, (process_rows_ok _ _ H1). simpl.
  rewrite process_row_spec, Hr. simpl.
  now rewrite after_rows_app.
Qed.

Lemma qualifies_iff (r : row) :
  qualifies r = true <-> getitem r 10 = Some sentinel.
Proof.
  unfold qualifies. destruct (getitem r 10) as [event|].
  - rewrite String.eqb_eq. split; congruence.
  - split; discriminate.
Qed.

Lemma row_raises_iff (r : row) :
  row_raises r = true <->
  length r <= 10 \/ (getitem r 10 = Some sentinel /\ length r <= 16).
Proof.
  unfold row_raises.
  destruct (getitem r 10) as [event|] eqn:E.
  - assert (L : 10 < length r).
    { apply nth_error_Some. unfold getitem in E. congruence. }
    rewrite andb_true_iff, String.eqb_eq, Nat.ltb_lt. split.
    + intros [-> H]. right. split; [reflexivity | lia].
    + intros [H | [H1 H2]]; [lia|]. split; [congruence | lia].
  - apply nth_error_None in E. split; [now left | reflexivity].
Qed.

(** The comparison with the sentinel is exact: another capitalisation does
    not qualify. *)
Example sentinel_is_case_sensitive :
  qualifies (repeat EmptyString 10 ++ ["nextsong"]) = false
  /\ qualifies (repeat EmptyString 10 ++ ["NextSong "]) = false
  /\ qualifies (repeat EmptyString 10 ++ ["NextSong"]) = true.
Proof. repeat split. Qed.

(** ** Claims on the aggregator *)

(** C2. Count correctness. When the run reaches its final [print], the
    output file consists of the header record followed by exactly as many
    data records as there are data rows, over all discovered files, whose
    field 10 is exactly "NextSong"; the bytes of the file determine these
    records; every other row adds nothing to the file; and the printed
    counters are Read = number of data rows, Written = number of qualifying
    rows, Discarded = Read - Written = number of non-qualifying rows. *)
Theorem aggregate_count_correct
        (previous : option string) (files : list csv_file) :
  returns (aggregate previous files) = true ->
  exists out_rows : list (list string),
    output_file (final_state (aggregate previous files))
      = Csv.format_rows (header :: out_rows)
    /\ (forall records : list (list string),
           output_file (final_state (aggregate previous files))
             = Csv.format_rows records ->
           records = header :: out_rows)
    /\ length out_rows
       = length (filter (fun r => match getitem r 10 with
                                  | Some event => String.eqb event "NextSong"
                                  | None => false
                                  end) (data_rows files))
    /\ counters (aggregate previous files)
       = Some (length (data_rows files),
               length out_rows,
               length (data_rows files) - length out_rows)
    /\ length (data_rows files) - length out_rows
       = length (filter (fun r => negb (qualifies r)) (data_rows files)).
Proof.
  intros H. rewrite aggregate_returns in H.
  exists (map projection (filter qualifies (data_rows files))).
  rewrite (aggregate_ok previous _ H). simpl.
  repeat split.
  - intros records E. symmetry.
    apply CsvFacts.format_rows_inj. exact E.
  - now rewrite length_map.
  - now rewrite length_map.
  - rewrite length_map.
    pose proof (filter_length qualifies (data_rows files)). lia.
Qed.

Lemma aggregate_count_correct_witness :
  exists out_rows : list (list string),
    output_file (final_state (aggregate None [sample_file; [raw_header; home_row]]))
      = Csv.format_rows (header :: out_rows)
    /\ length out_rows = 2
    /\ counters (aggregate None [sample_file; [raw_header; home_row]])
       = Some (4, 2, 2).
Proof.
  destruct (@aggregate_count_correct None [sample_file; [raw_header; home_row]]
              eq_refl) as [out_rows [E [_ [L [C _]]]]].
  exists out_rows. split; [exact E|]. split; [exact L|].
  rewrite C, L. reflexivity.
Defined.

Lemma escape_quote_free (field : string) :
  quote_free field = true -> Csv.escape field = field.
Proof.
  induction field as [|c rest IH]; [reflexivity|].
  cbn [quote_free Csv.escape]. intros H.
  apply andb_true_iff in H. destruct H as [Hc Hr].
  apply negb_true_iff in Hc.
  change (Ascii.eqb c Csv.quotechar) with (Ascii.eqb c "034").
  rewrite Hc. now rewrite (IH Hr).
Qed.

Lemma escape_app (a b : string) :
  Csv.escape (a ++ b) = (Csv.escape a ++ Csv.escape b)%string.
Proof.
  induction a as [|c a IH]; [reflexivity|].
  simpl. rewrite IH. now destruct (Ascii.eqb c Csv.quotechar).
Qed.

Lemma quote_field_quote_free (field : string) :
  quote_free field = true -> Csv.quote_field field = in_quotes field.
Proof.
  intros H. unfold Csv.quote_field, in_quotes. now rewrite (escape_quote_free _ H).
Qed.

(** C5. Projection and output format. A row that has the referenced
    positions and whose field 10 is the sentinel makes the writer append
    exactly one record, made of the fields at offsets 0, 2, 4, 5, 6, 12, 13
    and 16 in that order; the file of a completed run is the header record
    followed by these records in arrival order; every field of a record is
    written between quote characters; and the file is rebuilt from nothing,
    whatever it held before the run. The bytes of a record carry its
    fields: a field without quote character is written as it is between two
    quote characters, a quote character inside a field is written twice,
    and the fields of a record can be read back from its bytes. *)
Theorem aggregate_projection_format
        (previous : option string) (files : list csv_file) :
  (forall (st : agg_state) (r : row),
      17 <= length r -> getitem r 10 = Some "NextSong" ->
      process_row st r
      = Returned (mkAgg (S (read st)) (S (written st))
                        (output_file st ++
                         Csv.format_row
                           (map (fun i => nth i r EmptyString)
                                [0; 2; 4; 5; 6; 12; 13; 16]))))
  /\ (returns (aggregate previous files) = true ->
      output_file (final_state (aggregate previous files))
      = Csv.format_rows
          ([ "artist_name"; "user_first_name"; "item_in_session";
             "user_last_name"; "song_length"; "session_id"; "song_title";
             "user_id" ]
           :: map projection (filter qualifies (data_rows files))))
  /\ (forall c0 c2 c4 c5 c6 c12 c13 c16 : string,
      Csv.format_row [c0; c2; c4; c5; c6; c12; c13; c16]
      = (Csv.quote_field c0 ++ "," ++ Csv.quote_field c2 ++ "," ++
         Csv.quote_field c4 ++ "," ++ Csv.quote_field c5 ++ "," ++
         Csv.quote_field c6 ++ "," ++ Csv.quote_field c12 ++ "," ++
         Csv.quote_field c13 ++ "," ++ Csv.quote_field c16 ++
         Csv.lineterminator)%string)
  /\ (forall field : string,
      Csv.quote_field field
      = String Csv.quotechar (Csv.escape field ++ String Csv.quotechar EmptyString))
  /\ (forall other : option string,
      aggregate other files = aggregate previous files)
  /\ (forall (st : agg_state) (r : row),
      17 <= length r -> getitem r 10 = Some "NextSong" ->
      forallb quote_free (projection r) = true ->
      process_row st r
      = Returned (mkAgg (S (read st)) (S (written st))
                        (output_file st ++
                         plain_line (nth 0 r EmptyString) (nth 2 r EmptyString)
                                    (nth 4 r EmptyString) (nth 5 r EmptyString)
                                    (nth 6 r EmptyString) (nth 12 r EmptyString)
                                    (nth 13 r EmptyString) (nth 16 r EmptyString))))
  /\ (forall field : string,
      quote_free field = true ->
      Csv.quote_field field = String "034" (field ++ String "034" EmptyString))
  /\ (forall a b : string,
      quote_free a = true -> quote_free b = true ->
      Csv.quote_field (a ++ String "034" b)
      = String "034"
          (a ++ String "034" (String "034" (b ++ String "034" EmptyString))))
  /\ (forall fields fields' : list string,
      Csv.format_row fields = Csv.format_row fields' -> fields = fields').
Proof.
  assert (Hrow : forall (st : agg_state) (r : row),
             17 <= length r -> getitem r 10 = Some "NextSong" ->
             process_row st r
             = Returned (mkAgg (S (read st)) (S (written st))
                               (output_file st ++ Csv.format_row (projection r)))).
  { intros st r L E. rewrite process_row_spec.
    assert (R : row_raises r = false).
    { destruct (row_raises r) eqn:R; [|reflexivity].
      apply row_raises_iff in R. lia. }
    rewrite R. change (getitem r 10 = Some sentinel) in E.
    apply qualifies_iff in E. now rewrite E. }
  split; [exact Hrow|].
  split.
  { intros H. rewrite aggregate_returns in H.
    now rewrite (aggregate_ok previous _ H). }
  split.
  { intros. rewrite CsvFacts.format_row_cons. reflexivity. }
  split; [reflexivity|].
  split; [reflexivity|].
  split.
  { intros st r L E Q. rewrite (Hrow st r L E). do 2 f_equal.
    unfold projection in *. cbn [map forallb] in *.
    repeat (apply andb_true_iff in Q; destruct Q as [?Hq Q]).
    rewrite CsvFacts.format_row_cons. unfold plain_line.
    cbn [Csv.more_fields].
    rewrite !quote_field_quote_free by assumption. reflexivity. }
  split.
  { intros field H. now rewrite quote_field_quote_free. }
  split.
  { intros a b Ha Hb. unfold Csv.quote_field.
    rewrite escape_app.
    change (Csv.escape (String "034" b))
      with (String "034" (String "034" (Csv.escape b))).
    rewrite (escape_quote_free _ Ha), (escape_quote_free _ Hb).
    rewrite string_app_assoc. reflexivity. }
  intros fields fields' H.
  assert (E : (Csv.format_row fields ++ EmptyString
               = Csv.format_row fields' ++ EmptyString)%string).
  { now rewrite H. }
  apply CsvFacts.format_row_unique in E. tauto.
Qed.

Lemma aggregate_projection_format_witness :
  process_row (mkAgg 0 0 EmptyString) song_row
  = Returned (mkAgg 1 1
       (Csv.format_row
          ["Des'ree"; "Kaylee"; "1"; "Summers"; "246.30812"; "139";
           "You Gotta Be"; "8"]))
  /\ output_file (final_state (aggregate (Some "stale") [sample_file]))
     = Csv.format_rows [header; projection song_row; projection song_row]
  /\ process_row (mkAgg 0 0 EmptyString) song_row
     = Returned (mkAgg 1 1
          (plain_line "Des'ree" "Kaylee" "1" "Summers" "246.30812" "139"
                      "You Gotta Be" "8"))
  /\ Csv.quote_field (nth 13 quoted_title_row EmptyString) = quoted_title_bytes.
Proof.
  destruct (@aggregate_projection_format (Some "stale") [sample_file])
    as [Hrow [Hrun [_ [_ [_ [Hplain [_ [Hquote _]]]]]]]].
  split; [|split; [|split]].
  - apply (Hrow (mkAgg 0 0 EmptyString) song_row); [simpl; lia | reflexivity].
  - apply Hrun. reflexivity.
  - apply (Hplain (mkAgg 0 0 EmptyString) song_row);
      [simpl; lia | reflexivity | reflexivity].
  - exact (Hquote "7" ", remix" eq_refl eq_refl).
Defined.

(** C6, as stated, fails: a data row with fewer fields than the highest
    referenced position (16) is not always fatal. A row of eleven fields
    whose field 10 is "Login" is counted and skipped, and the rows after it
    are processed. *)
Lemma short_row_is_not_fatal :
  length short_login_row < 17
  /\ aggregate None [[raw_header; short_login_row; song_row]]
     = Returned (mkAgg 2 1 (Csv.format_rows [header; projection song_row])).
Proof. split; [simpl; lia | reflexivity]. Qed.

(** C6, amended. A data row that the run reaches (every earlier file has a
    first line and no earlier data row raises) and that has fewer than 11
    fields, or whose field 10 is the sentinel and that has fewer than 17
    fields, raises an IndexError that ends the run: the row is counted as
    read, nothing is written for it, and the counters and the file are those
    reached by the rows before it, whatever rows and files follow. *)
Theorem malformed_row_fatal
        (previous : option string) (pre post : list csv_file) (hd : row)
        (rows1 rows2 : list row) (r : row) :
  inputs_ok pre = true ->
  rows_ok rows1 = true ->
  length r < 11 \/ (getitem r 10 = Some sentinel /\ length r < 17) ->
  aggregate previous (pre ++ (hd :: rows1 ++ r :: rows2) :: post)
  = Raised IndexError
      (mkAgg (S (length (data_rows pre ++ rows1)))
             (length (filter qualifies (data_rows pre ++ rows1)))
             (Csv.format_rows
                (header :: map projection
                             (filter qualifies (data_rows pre ++ rows1))))).
Proof.
  intros Hpre H1 Hr.
  assert (R : row_raises r = true).
  { apply row_raises_iff. destruct Hr as [H | [Hev H]].
    - left. lia.
    - right. split; [exact Hev | lia]. }
  unfold aggregate.
  rewrite (process_files_raise_at _ _ _ _ _ _ _ Hpre H1 R).
  reflexivity.
Qed.

Lemma malformed_row_fatal_witness :
  aggregate None ([sample_file]
                  ++ (raw_header :: [home_row] ++ short_song_row :: [song_row])
                  :: [sample_file])
  = Raised IndexError
      (mkAgg 5 2 (Csv.format_rows [header; projection song_row; projection song_row])).
Proof.
  apply (@malformed_row_fatal None [sample_file] [sample_file] raw_header
           [home_row] [song_row] short_song_row).
  - reflexivity.
  - reflexivity.
  - right. split; [reflexivity | simpl; lia].
Defined.

(** C8. Determinism. A second run over the same files in the same discovery
    order, started on the file the first run left behind, ends in the same
    way with the same counters and leaves a byte-identical file; the same
    holds from any two earlier contents of the output file. *)
Theorem aggregate_deterministic
        (previous : option string) (files : list csv_file) :
  let first_run := aggregate previous files in
  let second_run :=
    aggregate (Some (output_file (final_state first_run))) files in
  output_file (final_state second_run) = output_file (final_state first_run)
  /\ second_run = first_run
  /\ forall other : option string,
       output_file (final_state (aggregate other files))
       = output_file (final_state first_run).
Proof.
  cbv zeta. repeat split.
Qed.

(** The same files discovered in another order give other bytes: the order
    of discovery is part of the input. *)
Example discovery_order_matters :
  let a := [raw_header; song_row] in
  let b := [raw_header; short_song_row] in
  output_file (final_state (aggregate None [a; b]))
  <> output_file (final_state (aggregate None [b; a])).
Proof. cbv zeta. vm_compute. discriminate. Qed.

(** C9. A row with at least 11 and fewer than 17 fields whose field 10 is
    not the sentinel is counted as read, writes nothing, and the loop goes
    on with the next row. A row raises IndexError exactly when an index that
    is evaluated for it is out of range: index 10, or, for a row whose
    field 10 is the sentinel, one of 0, 2, 4, 5, 6, 12, 13, 16. *)
Theorem short_non_song_row_discarded (st : agg_state) (r : row) :
  (11 <= length r -> length r < 17 -> getitem r 10 <> Some sentinel ->
   process_row st r
   = Returned (mkAgg (S (read st)) (written st) (output_file st))
   /\ forall rest : list row,
        process_rows st (r :: rest)
        = process_rows (mkAgg (S (read st)) (written st) (output_file st)) rest)
  /\ ((exists e s, process_row st r = Raised e s)
      <-> (getitem r 10 = None
           \/ (getitem r 10 = Some sentinel
               /\ exists i, In i [0; 2; 4; 5; 6; 12; 13; 16]
                            /\ getitem r i = None)))
  /\ (forall e s, process_row st r = Raised e s -> e = IndexError).
Proof.
  split; [|split].
  - intros L11 L17 N.
    assert (R : row_raises r = false).
    { destruct (row_raises r) eqn:R; [|reflexivity].
      apply row_raises_iff in R. destruct R as [R | [R _]]; [lia | contradiction]. }
    assert (Q : qualifies r = false).
    { destruct (qualifies r) eqn:Q; [|reflexivity].
      apply qualifies_iff in Q. contradiction. }
    assert (E : process_row st r = Returned (after_read st)).
    { now rewrite process_row_spec, R, Q. }
    split; [exact E|]. intros rest. simpl. now rewrite E.
  - rewrite process_row_spec. split.
    + intros [e [s H]].
      destruct (row_raises r) eqn:R.
      * apply row_raises_iff in R. destruct R as [R | [R1 R2]].
        -- left. apply nth_error_None. lia.
        -- right. split; [exact R1|]. exists 16. split; [simpl; tauto|].
           apply nth_error_None. lia.
      * destruct (qualifies r); discriminate H.
    + intros H.
      assert (R : row_raises r = true).
      { apply row_raises_iff. destruct H as [H | [H1 [i [Hi H2]]]].
        - left. apply nth_error_None in H. lia.
        - right. split; [exact H1|]. apply nth_error_None in H2.
          simpl in Hi. lia. }
      rewrite R. eauto.
  - intros e s. rewrite process_row_spec.
    destruct (row_raises r); [congruence|].
    destruct (qualifies r); discriminate.
Qed.

Lemma short_non_song_row_discarded_witness :
  process_row (mkAgg 3 1 "x") short_login_row = Returned (mkAgg 4 1 "x")
  /\ process_rows (mkAgg 3 1 "x") [short_login_row; home_row]
     = Returned (mkAgg 5 1 "x").
Proof.
  destruct (@short_non_song_row_discarded (mkAgg 3 1 "x") short_login_row)
    as [H _].
  destruct H as [H1 H2].
  - simpl; lia.
  - simpl; lia.
  - discriminate.
  - split; [exact H1|]. rewrite H2. reflexivity.
Defined.

(** C10. A discovered file with no line at all makes the header skip raise
    StopIteration, which nothing catches: the run never reaches its final
    [print], and whenever the files before the empty one are processed
    without an exception, the run ends with StopIteration in the state those
    files produced, so that no later file contributes a row. *)
Theorem empty_file_stops_run
        (previous : option string) (pre post : list csv_file) :
  aggregate previous (pre ++ [] :: post)
  = (do st <- aggregate previous pre ;; Raised StopIteration st)
  /\ returns (aggregate previous (pre ++ [] :: post)) = false
  /\ (returns (aggregate previous pre) = true ->
      aggregate previous (pre ++ [] :: post)
      = Raised StopIteration
          (mkAgg (length (data_rows pre))
                 (length (filter qualifies (data_rows pre)))
                 (Csv.format_rows
                    (header :: map projection (filter qualifies (data_rows pre)))))).
Proof.
  assert (E : aggregate previous (pre ++ [] :: post)
              = (do st <- aggregate previous pre ;; Raised StopIteration st)).
  { unfold aggregate. rewrite process_files_app.
    destruct (process_files _ pre); reflexivity. }
  split; [exact E|]. split.
  - rewrite E. destruct (aggregate previous pre); reflexivity.
  - intros H. rewrite aggregate_returns in H.
    rewrite E, (aggregate_ok previous _ H). reflexivity.
Qed.

Lemma empty_file_stops_run_witness :
  aggregate None ([sample_file] ++ [] :: [sample_file])
  = Raised StopIteration
      (mkAgg 3 2 (Csv.format_rows [header; projection song_row; projection song_row])).
Proof.
  destruct (@empty_file_stops_run None [sample_file] [sample_file])
    as [_ [_ H]].
  apply H. reflexivity.
Defined.

(* ================================================================== *)
(** ** The loader *)

(** *** Chunks *)

Lemma ceil_div_zero (size : nat) : 0 < size -> ceil_div 0 size = 0.
Proof. intros H. unfold ceil_div. apply Nat.div_small. lia. Qed.

Lemma ceil_div_step (n size : nat) :
  0 < size -> 0 < n -> ceil_div n size = S (ceil_div (n - size) size).
Proof.
  intros Hs Hn. unfold ceil_div.
  destruct (Nat.le_gt_cases size n) as [L | L].
  - replace (n + (size - 1)) with ((n - size + (size - 1)) + 1 * size) by lia.
    rewrite Nat.div_add by lia. lia.
  - replace (n - size) with 0 by lia.
    rewrite (Nat.div_small (0 + (size - 1))) by lia.
    replace (n + (size - 1)) with ((n - 1) + 1 * size) by lia.
    rewrite Nat.div_add by lia.
    rewrite Nat.div_small by lia. reflexivity.
Qed.

Lemma chunks_fuel_length (A : Type) (size fuel : nat) (l : list A) :
  0 < size -> length l <= fuel ->
  length (chunks_fuel fuel size l) = ceil_div (length l) size.
Proof.
  intros Hs. revert l. induction fuel as [|fuel IH]; intros l L.
  - destruct l; [|simpl in L; lia]. simpl. now rewrite ceil_div_zero.
  - destruct l as [|a l]; [simpl; now rewrite ceil_div_zero|].
    cbn [chunks_fuel length]. rewrite IH.
    + rewrite length_skipn. symmetry.
      apply (@ceil_div_step (S (length l)) size Hs). lia.
    + rewrite length_skipn. cbn [length] in *. lia.
Qed.

Lemma chunks_fuel_concat (A : Type) (size fuel : nat) (l : list A) :
  0 < size -> length l <= fuel ->
  concat (chunks_fuel fuel size l) = l.
Proof.
  intros Hs. revert l. induction fuel as [|fuel IH]; intros l L.
  - destruct l; [reflexivity | simpl in L; lia].
  - destruct l as [|a l]; [reflexivity|].
    cbn [chunks_fuel concat]. rewrite IH.
    + apply firstn_skipn.
    + rewrite length_skipn. cbn [length] in *. lia.
Qed.

Lemma read_csv_length (A : Type) (size : nat) (l : list A) :
  0 < size -> l <> [] ->
  length (read_csv size l) = ceil_div (length l) size.
Proof.
  intros H N. destruct l as [|a l]; [contradiction|].
  now apply chunks_fuel_length.
Qed.

Lemma read_csv_concat (A : Type) (size : nat) (l : list A) :
  0 < size -> concat (read_csv size l) = l.
Proof.
  intros H. destruct l as [|a l]; [reflexivity|].
  now apply chunks_fuel_concat.
Qed.

(** *** One chunk *)

Lemma inserts_length (df : list event) : length (inserts df) = 3 * length df.
Proof.
  unfold inserts. induction df as [|r df IH]; [reflexivity|].
  simpl in *. rewrite IH. lia.
Qed.

Lemma add_rows_spec (df : list event) (st : load_state) :
  fold_left add_row df st
  = mkLoad (batches st) (records st + 3 * length df)
           (batch st ++ inserts df) (executed st) (stdout st).
Proof.
  revert st. induction df as [|r df IH]; intros st.
  - destruct st. simpl. now rewrite Nat.add_0_r, app_nil_r.
  - cbn [fold_left]. rewrite IH. unfold add_row, batch_append. cbn.
    f_equal; [lia|]. now rewrite <- !app_assoc.
Qed.

Section LoaderFacts.

Variable session_execute : nat -> list statement -> exec_result.

Lemma process_chunk_spec (st : load_state) (df : list event) :
  process_chunk session_execute st df
  = mkLoad (if failed (answer session_execute st df) then batches st else S (batches st))
           (records st + 3 * length df)
           (if failed (answer session_execute st df) then submitted st df else [])
           (executed st ++ [submitted st df])
           (stdout st ++ failure_report (answer session_execute st df)).
Proof.
  unfold process_chunk, answer, submitted. rewrite add_rows_spec. cbn.
  destruct (session_execute _ _); cbn; [now rewrite app_nil_r | reflexivity].
Qed.

Lemma outcomes_from_snoc (sent : list (list statement)) (call : nat)
      (b : list statement) :
  outcomes_from session_execute call (sent ++ [b])
  = outcomes_from session_execute call sent ++ [session_execute (call + length sent) b].
Proof.
  revert call. induction sent as [|a sent IH]; intros call; simpl.
  - now rewrite Nat.add_0_r.
  - rewrite IH, Nat.add_succ_r. reflexivity.
Qed.

Lemma outcomes_process_chunk (st : load_state) (df : list event) :
  outcomes session_execute (process_chunk session_execute st df) = outcomes session_execute st ++ [answer session_execute st df].
Proof.
  unfold outcomes. rewrite process_chunk_spec. cbn.
  now rewrite outcomes_from_snoc.
Qed.

(** *** The whole loop *)

Lemma consistent_init : consistent session_execute (mkLoad 0 0 [] [] []).
Proof. split; reflexivity. Qed.

Lemma consistent_process_chunk (st : load_state) (df : list event) :
  consistent session_execute st -> consistent session_execute (process_chunk session_execute st df).
Proof.
  intros [Hb Hs]. split; rewrite outcomes_process_chunk.
  - rewrite filter_app, length_app, <- Hb, process_chunk_spec. cbn.
    unfold succeeded. destruct (failed (answer session_execute st df)); cbn; lia.
  - rewrite flat_map_app, <- Hs, process_chunk_spec. cbn.
    now rewrite app_nil_r.
Qed.

Lemma consistent_load_chunks (dfs : list (list event)) (st : load_state) :
  consistent session_execute st -> consistent session_execute (load_chunks session_execute st dfs).
Proof.
  revert st. induction dfs as [|df dfs IH]; intros st H; [exact H|].
  apply IH. now apply consistent_process_chunk.
Qed.

Lemma load_chunks_records (dfs : list (list event)) (st : load_state) :
  records (load_chunks session_execute st dfs) = records st + 3 * length (concat dfs).
Proof.
  revert st. induction dfs as [|df dfs IH]; intros st; [simpl; lia|].
  change (load_chunks session_execute st (df :: dfs))
      with (load_chunks session_execute (process_chunk session_execute st df) dfs).
  rewrite IH, process_chunk_spec. cbn. rewrite length_app. lia.
Qed.

(** Every chunk adds exactly one submission, after those already made. *)
Lemma load_chunks_executed (dfs : list (list event)) (st : load_state) :
  exists sent : list (list statement),
    executed (load_chunks session_execute st dfs) = executed st ++ sent
    /\ length sent = length dfs
    /\ forall k df, nth_error dfs k = Some df ->
         exists leftover,
           nth_error sent k = Some (leftover ++ inserts df).
Proof.
  revert st. induction dfs as [|df dfs IH]; intros st.
  - exists []. simpl. rewrite app_nil_r. repeat split.
    intros [|k] df H; discriminate H.
  - change (load_chunks session_execute st (df :: dfs))
      with (load_chunks session_execute (process_chunk session_execute st df) dfs).
    destruct (IH (process_chunk session_execute st df)) as [sent [E [L N]]].
    exists (submitted st df :: sent). split; [|split].
    + rewrite E, process_chunk_spec. cbn. now rewrite <- app_assoc.
    + simpl. now rewrite L.
    + intros [|k] df' H; simpl in H.
      * injection H as <-. exists (batch st). reflexivity.
      * simpl. now apply N.
Qed.

(** A failed submission leaves its statements in the batch: the next
    chunk submits them again, in front of its own. *)
Lemma failure_carries_batch (st : load_state) (df1 df2 : list event) :
  failed (answer session_execute st df1) = true ->
  executed (process_chunk session_execute (process_chunk session_execute st df1) df2)
  = executed st ++ [batch st ++ inserts df1;
                    batch st ++ inserts df1 ++ inserts df2].
Proof.
  intros F. rewrite (process_chunk_spec (process_chunk session_execute st df1) df2).
  unfold submitted. rewrite (process_chunk_spec st df1). cbn.
  rewrite F. unfold submitted. now rewrite <- !app_assoc.
Qed.

(** A successful submission empties the batch: the next chunk submits its
    own statements only. *)
Lemma success_clears_batch (st : load_state) (df1 df2 : list event) :
  failed (answer session_execute st df1) = false ->
  executed (process_chunk session_execute (process_chunk session_execute st df1) df2)
  = executed st ++ [batch st ++ inserts df1; inserts df2].
Proof.
  intros F. rewrite (process_chunk_spec (process_chunk session_execute st df1) df2).
  unfold submitted. rewrite (process_chunk_spec st df1). cbn.
  rewrite F. now rewrite <- !app_assoc.
Qed.

End LoaderFacts.

(** ** Claims on the loader *)

(** C1. With 101 records the file is loaded in two windows. When the store
    rejects the first submission, the 300 statements of the first window
    stay in the batch, and the second submission carries 303 statements:
    those of the first window again, followed by the 3 of the second. The
    failure is printed and the loop goes on. *)
Theorem failed_batch_is_submitted_again :
  let rows := repeat sample_event 100 ++ [other_event] in
  let st := load fail_first rows in
  executed st
  = [ inserts (repeat sample_event 100);
      inserts (repeat sample_event 100) ++ inserts_of other_event ]
  /\ map (@length statement) (executed st) = [300; 303]
  /\ outcomes fail_first st = [ExecError "Batch too large"; ExecOk]
  /\ stdout st = ["Error while processing a batch statement"; "Batch too large"]
  /\ metrics st = (1, 303).
Proof. vm_compute. repeat split. Qed.


(** One submission per window, in a run in which no [batch.add] raises. *)
Lemma ideal_load_windows
        (session_execute : nat -> list statement -> exec_result)
        (rows : list event) :
  let st := load session_execute rows in
  let windows := read_csv CHUNK_SIZE rows in
  length (executed st) = length windows
  /\ concat windows = rows
  /\ (forall k df, nth_error windows k = Some df ->
        exists leftover,
          nth_error (executed st) k
          = Some (leftover ++ concat (map inserts_of df)))
  /\ stdout st = flat_map failure_report (outcomes session_execute st)
  /\ records st = 3 * length rows.
Proof.
  cbv zeta. unfold load.
  set (init := mkLoad 0 0 [] [] []).
  set (dfs := read_csv CHUNK_SIZE rows).
  assert (C : concat dfs = rows).
  { subst dfs. apply read_csv_concat. unfold CHUNK_SIZE. lia. }
  destruct (load_chunks_executed session_execute dfs init) as [sent [E [L N]]].
  destruct (consistent_load_chunks dfs (consistent_init session_execute))
    as [_ Hs].
  fold init in Hs.
  repeat split.
  - rewrite E. subst init. cbn [executed app]. exact L.
  - exact C.
  - intros k df H. rewrite E. simpl. now apply N.
  - exact Hs.
  - rewrite load_chunks_records, C. reflexivity.
Qed.

(* ================================================================== *)
(** ** Dropping the tables *)

Lemma exists_after_drop (t u : table) (l : list table) :
  existsb (table_eqb u) (filter (fun x => negb (table_eqb t x)) l)
  = existsb (table_eqb u) l && negb (table_eqb t u).
Proof.
  induction l as [|x l IH]; [reflexivity|].
  simpl. destruct (table_eqb t x) eqn:Etx; simpl; rewrite IH.
  - destruct t, x, u; try discriminate Etx; simpl;
      destruct (existsb _ l); reflexivity.
  - destruct t, x, u; try discriminate Etx; simpl;
      destruct (existsb _ l); reflexivity.
Qed.

(** C4, as stated, fails: the three drops are not attempted independently.
    When the first table was never created, its drop fails, the two other
    drops are never sent, and the two other tables still exist after the
    teardown. *)
Lemma first_failed_drop_skips_the_others :
  let s := teardown first_table_missing in
  drops_received s = [songs_by_session]
  /\ tables s = [songs_by_user; users_by_song]
  /\ printed s = ["Error while dropping the table"; "unconfigured table"]
  /\ ~ (forall t, In t all_tables -> In t (drops_received s)).
Proof.
  vm_compute. repeat split.
  intros H. destruct (H users_by_song) as [E | []].
  - right. right. now left.
  - discriminate E.
Qed.

(** C4, amended. The three drops are sent in order inside one guarded block:
    the block stops at the first drop that fails, prints one report for it
    and sends no later drop; no failure escapes the block, so that a table
    that was never created is reported and is not fatal; the session and
    the cluster connection are closed in every case. When the three tables
    exist, the three are dropped and nothing is printed. *)
Theorem teardown_stops_at_first_failure (s : store) :
  let s' := teardown s in
  (session_open s' = false /\ cluster_open s' = false)
  /\ (exists_table s songs_by_session = false ->
      drops_received s' = drops_received s ++ [songs_by_session]
      /\ tables s' = tables s
      /\ printed s' = printed s ++ drop_report)
  /\ (exists_table s songs_by_session = true ->
      exists_table s songs_by_user = false ->
      drops_received s' = drops_received s ++ [songs_by_session; songs_by_user]
      /\ exists_table s' songs_by_session = false
      /\ exists_table s' users_by_song = exists_table s users_by_song
      /\ printed s' = printed s ++ drop_report)
  /\ (exists_table s songs_by_session = true ->
      exists_table s songs_by_user = true ->
      exists_table s users_by_song = false ->
      drops_received s' = drops_received s ++ all_tables
      /\ (forall t, exists_table s' t = false)
      /\ printed s' = printed s ++ drop_report)
  /\ (exists_table s songs_by_session = true ->
      exists_table s songs_by_user = true ->
      exists_table s users_by_song = true ->
      drops_received s' = drops_received s ++ all_tables
      /\ (forall t, exists_table s' t = false)
      /\ printed s' = printed s).
Proof.
  destruct s as [ts so co dr pr].
  unfold teardown, close_session, drop_tables, all_tables.
  cbn [run_drops]. unfold execute_drop, exists_table.
  cbn [tables session_open cluster_open drops_received printed].
  destruct (existsb (table_eqb songs_by_session) ts) eqn:E1;
    destruct (existsb (table_eqb songs_by_user) ts) eqn:E2;
    destruct (existsb (table_eqb users_by_song) ts) eqn:E3;
    repeat (rewrite ?exists_after_drop, ?E1, ?E2, ?E3; eval_table_eqb;
            cbn [andb negb tables session_open cluster_open
                 drops_received printed]);
    repeat split; try discriminate; intros;
    rewrite <- ?app_assoc; try reflexivity;
    destruct t;
    repeat (rewrite ?exists_after_drop, ?E1, ?E2, ?E3; eval_table_eqb;
            cbn [andb negb]);
    reflexivity.
Qed.

Lemma teardown_stops_at_first_failure_witness :
  drops_received (teardown first_table_missing) = [songs_by_session]
  /\ drops_received (teardown all_created) = all_tables
  /\ printed (teardown all_created) = [].
Proof.
  destruct (teardown_stops_at_first_failure first_table_missing)
    as [_ [H1 _]].
  destruct (teardown_stops_at_first_failure all_created)
    as [_ [_ [_ [_ H4]]]].
  destruct (H1 eq_refl) as [D1 _].
  destruct (H4 eq_refl eq_refl eq_refl) as [D4 [_ P4]].
  split; [exact D1 | split; [exact D4 | exact P4]].
Defined.

(* ================================================================== *)
(** * Further properties *)

(** ** Aggregation *)

Lemma file_ok_iff (f : csv_file) :
  file_ok f = true <->
  f <> [] /\
  forall r, In r (tl f) ->
    11 <= length r /\ (getitem r 10 = Some sentinel -> 17 <= length r).
Proof.
  destruct f as [|hd rows]; simpl.
  - split; [discriminate | intros [H _]; now contradiction H].
  - rewrite forallb_forall. split.
    + intros H. split; [discriminate|]. intros r Hr.
      specialize (H r Hr). apply negb_true_iff in H. split.
      * destruct (le_lt_dec 11 (length r)) as [L|L]; [exact L|].
        assert (R : row_raises r = true) by (apply row_raises_iff; left; lia).
        congruence.
      * intros E. destruct (le_lt_dec 17 (length r)) as [L|L]; [exact L|].
        assert (R : row_raises r = true).
        { apply row_raises_iff. right. split; [exact E | lia]. }
        congruence.
    + intros [_ H] r Hr. destruct (H r Hr) as [L Q].
      apply negb_true_iff. destruct (row_raises r) eqn:R; [|reflexivity].
      apply row_raises_iff in R. destruct R as [R | [R1 R2]]; [lia|].
      specialize (Q R1). lia.
Qed.

(** X1. The run reaches its final [print] exactly when every discovered
    file has a first line, every data row has a field 10, and every data
    row whose field 10 is the sentinel has at least 17 fields. *)
Theorem aggregate_completes_iff
        (previous : option string) (files : list csv_file) :
  returns (aggregate previous files) = true <->
  (forall f, In f files ->
     f <> [] /\
     forall r, In r (tl f) ->
       11 <= length r /\ (getitem r 10 = Some sentinel -> 17 <= length r)).
Proof.
  rewrite aggregate_returns. unfold inputs_ok. rewrite forallb_forall.
  split; intros H f Hf; apply file_ok_iff; auto.
Qed.

Lemma aggregate_completes_iff_witness :
  returns (aggregate None [sample_file; [raw_header; short_login_row]]) = true.
Proof.
  apply (proj2 (aggregate_completes_iff None
                  [sample_file; [raw_header; short_login_row]])).
  intros f [<- | [<- | []]]; (split; [discriminate|]); simpl.
  - intros r [<- | [<- | [<- | []]]]; simpl; split; try lia; intros; lia.
  - intros r [<- | []]. simpl. split; [lia | discriminate].
Defined.

Lemma projection_length (r : row) : length (projection r) = 8.
Proof. reflexivity. Qed.

Lemma consistent_after_read (st : agg_state) :
  consistent_output st -> consistent_output (after_read st).
Proof.
  intros [recs [E [L [W F]]]]. exists recs. simpl. repeat split; auto.
Qed.

Lemma consistent_after_write (st : agg_state) (fields : list string) :
  length fields = 8 ->
  consistent_output st -> consistent_output (after_write st fields).
Proof.
  intros H8 [recs [E [L [W F]]]]. exists (recs ++ [fields]). simpl.
  repeat split.
  - rewrite E.
    change (header :: recs ++ [fields]) with ((header :: recs) ++ [fields]).
    rewrite CsvFacts.format_rows_app. simpl.
    now rewrite string_app_nil_r.
  - rewrite length_app. simpl. lia.
  - lia.
  - apply Forall_app. split; [exact F | now constructor].
Qed.

Lemma consistent_process_row (st : agg_state) (r : row) :
  consistent_output st -> consistent_output (final_state (process_row st r)).
Proof.
  intros H. rewrite process_row_spec.
  destruct (row_raises r); [now apply consistent_after_read|].
  destruct (qualifies r); simpl.
  - apply consistent_after_write; [apply projection_length | exact H].
  - now apply consistent_after_read.
Qed.

Lemma consistent_process_rows (rows : list row) (st : agg_state) :
  consistent_output st -> consistent_output (final_state (process_rows st rows)).
Proof.
  revert st. induction rows as [|r rows IH]; intros st H; [exact H|].
  simpl. pose proof (consistent_process_row r H) as Hr.
  destruct (process_row st r) as [s|e s]; simpl in *; [now apply IH | exact Hr].
Qed.

Lemma consistent_process_files (files : list csv_file) (st : agg_state) :
  consistent_output st ->
  consistent_output (final_state (process_files st files)).
Proof.
  revert st. induction files as [|f files IH]; intros st H; [exact H|].
  simpl. destruct f as [|hd rows]; [exact H|]. simpl.
  pose proof (consistent_process_rows rows H) as Hr.
  destruct (process_rows st rows) as [s|e s]; simpl in *;
    [now apply IH | exact Hr].
Qed.

Lemma read_process_rows (rows : list row) (st : agg_state) :
  read (final_state (process_rows st rows)) <= read st + length rows.
Proof.
  revert st. induction rows as [|r rows IH]; intros st; simpl; [lia|].
  rewrite process_row_spec.
  destruct (row_raises r); [simpl; lia|].
  destruct (qualifies r); simpl;
    match goal with |- context [process_rows ?s rows] =>
      specialize (IH s); simpl in IH; lia end.
Qed.

Lemma read_process_files (files : list csv_file) (st : agg_state) :
  read (final_state (process_files st files))
  <= read st + length (data_rows files).
Proof.
  revert st. induction files as [|f files IH]; intros st; [simpl; lia|].
  unfold data_rows. simpl. rewrite length_app.
  fold (data_rows files).
  destruct f as [|hd rows]; [simpl; lia|]. simpl.
  pose proof (read_process_rows rows st) as Hr.
  destruct (process_rows st rows) as [s|e s]; simpl in *; [|lia].
  specialize (IH s). lia.
Qed.

(** X2. However the run ends, normally or on an exception, the output file
    is the header record followed by exactly [written] records of eight
    fields each, [written] never exceeds [read], and [read] never exceeds
    the number of data rows of the input. *)
Theorem aggregate_keeps_file_and_counters_consistent
        (previous : option string) (files : list csv_file) :
  let st := final_state (aggregate previous files) in
  (exists recs : list (list string),
      output_file st = Csv.format_rows (header :: recs)
      /\ length recs = written st
      /\ Forall (fun rec => length rec = 8) recs)
  /\ written st <= read st
  /\ read st <= length (data_rows files).
Proof.
  cbv zeta. unfold aggregate.
  set (st1 := writerow (mkAgg 0 0 (open_w previous)) header).
  assert (H1 : consistent_output st1).
  { exists []. subst st1. simpl. repeat split; auto. }
  destruct (consistent_process_files files H1) as [recs [E [L [W F]]]].
  split; [|split].
  - exists recs. auto.
  - exact W.
  - apply (read_process_files files st1).
Qed.

Lemma extends_refl (st : agg_state) : extends st st.
Proof.
  split; [|split; lia]. exists EmptyString. now rewrite string_app_nil_r.
Qed.

Lemma extends_trans (st1 st2 st3 : agg_state) :
  extends st1 st2 -> extends st2 st3 -> extends st1 st3.
Proof.
  intros [[m1 E1] [R1 W1]] [[m2 E2] [R2 W2]]. split; [|split; lia].
  exists (m1 ++ m2)%string. now rewrite E2, E1, string_app_assoc.
Qed.

Lemma extends_process_row (st : agg_state) (r : row) :
  extends st (final_state (process_row st r)).
Proof.
  rewrite process_row_spec.
  assert (Hr : extends st (after_read st)).
  { split; [|simpl; split; lia]. exists EmptyString. simpl.
    now rewrite string_app_nil_r. }
  destruct (row_raises r); [exact Hr|].
  destruct (qualifies r); [|exact Hr].
  split; [|simpl; split; lia]. now exists (Csv.format_row (projection r)).
Qed.

Lemma extends_process_rows (rows : list row) (st : agg_state) :
  extends st (final_state (process_rows st rows)).
Proof.
  revert st. induction rows as [|r rows IH]; intros st; [apply extends_refl|].
  simpl. pose proof (extends_process_row st r) as Hr.
  destruct (process_row st r) as [s|e s]; simpl in *; [|exact Hr].
  exact (extends_trans Hr (IH s)).
Qed.

Lemma extends_process_files (files : list csv_file) (st : agg_state) :
  extends st (final_state (process_files st files)).
Proof.
  revert st. induction files as [|f files IH]; intros st; [apply extends_refl|].
  simpl. destruct f as [|hd rows]; [apply extends_refl|]. simpl.
  pose proof (extends_process_rows rows st) as Hr.
  destruct (process_rows st rows) as [s|e s]; simpl in *; [|exact Hr].
  exact (extends_trans Hr (IH s)).
Qed.

(** X3. The cell only appends. Whatever follows a sequence of discovered
    files, the bytes written for that sequence stay at the beginning of the
    output file, and the counters only grow; this also holds when either run
    ends on an exception. *)
Theorem aggregate_only_appends
        (previous : option string) (files1 files2 : list csv_file) :
  let st1 := final_state (aggregate previous files1) in
  let st2 := final_state (aggregate previous (files1 ++ files2)) in
  (exists more : string, output_file st2 = (output_file st1 ++ more)%string)
  /\ read st1 <= read st2
  /\ written st1 <= written st2.
Proof.
  cbv zeta. unfold aggregate. rewrite process_files_app.
  destruct (process_files _ files1) as [s|e s]; simpl.
  - apply extends_process_files.
  - apply extends_refl.
Qed.

Lemma process_row_same_referenced (st : agg_state) (r r' : row) :
  same_referenced_fields r r' -> process_row st r = process_row st r'.
Proof.
  intros H. unfold process_row, project.
  rewrite (H 10), (H 0), (H 2), (H 4), (H 5), (H 6), (H 12), (H 13), (H 16)
    by (simpl; tauto).
  reflexivity.
Qed.

(** X4. Only the positions 0, 2, 4, 5, 6, 10, 12, 13 and 16 of a row matter.
    Two sequences of rows that agree, row by row, on these positions (the
    same value, or both without that position) are processed in the same
    way: same counters, same bytes, same exception if any. The other
    fields and any field beyond position 16 are never looked at. *)
Theorem unreferenced_fields_are_ignored
        (st : agg_state) (rows rows' : list row) :
  Forall2 same_referenced_fields rows rows' ->
  process_rows st rows = process_rows st rows'.
Proof.
  intros H. revert st. induction H as [|r r' rows rows' Hr _ IH]; intros st.
  - reflexivity.
  - simpl. rewrite (process_row_same_referenced st Hr).
    destruct (process_row st r') as [s|e s]; simpl; [apply IH | reflexivity].
Qed.

Lemma unreferenced_fields_are_ignored_witness :
  process_rows (mkAgg 0 0 EmptyString) [song_row_other_fields; short_login_row]
  = process_rows (mkAgg 0 0 EmptyString) [song_row; short_login_row].
Proof.
  apply unreferenced_fields_are_ignored.
  constructor; [|constructor; [|constructor]].
  - intros i Hi. simpl in Hi.
    repeat (destruct Hi as [<- | Hi]; [reflexivity|]). contradiction.
  - intros i Hi. reflexivity.
Defined.

(** X5. The output file is unambiguous. Two sequences of records that the
    writer turns into the same bytes are the same sequence, whatever commas,
    quotes or line breaks the fields contain; hence two completed runs that
    leave the same file wrote the same projected rows in the same order. *)
Theorem aggregate_file_is_unambiguous :
  (forall rows1 rows2 : list (list string),
      Csv.format_rows rows1 = Csv.format_rows rows2 -> rows1 = rows2)
  /\ (forall (previous1 previous2 : option string)
             (files1 files2 : list csv_file),
      returns (aggregate previous1 files1) = true ->
      returns (aggregate previous2 files2) = true ->
      output_file (final_state (aggregate previous1 files1))
      = output_file (final_state (aggregate previous2 files2)) ->
      map projection (filter qualifies (data_rows files1))
      = map projection (filter qualifies (data_rows files2))).
Proof.
  split.
  - apply CsvFacts.format_rows_inj.
  - intros p1 p2 files1 files2 H1 H2.
    rewrite aggregate_returns in H1, H2.
    rewrite (aggregate_ok p1 _ H1), (aggregate_ok p2 _ H2).
    cbn [final_state output_file].
    intros E. apply CsvFacts.format_rows_inj in E. now injection E.
Qed.

Lemma aggregate_file_is_unambiguous_witness :
  map projection (filter qualifies (data_rows [sample_file]))
  = map projection
      (filter qualifies
         (data_rows [[raw_header; song_row_other_fields];
                     [raw_header; short_login_row; song_row]])).
Proof.
  destruct aggregate_file_is_unambiguous as [_ H].
  apply (H None (Some "stale") [sample_file]
           [[raw_header; song_row_other_fields];
            [raw_header; short_login_row; song_row]]);
    reflexivity.
Defined.

(** X6. The first row of a file is skipped without being looked at: changing
    the first row of every discovered file in any way changes nothing in the
    run. In particular a file that starts with a data row loses that row
    silently. *)
Theorem header_row_is_never_inspected
        (previous : option string) (g : row -> row) (files : list csv_file) :
  aggregate previous (map (replace_header g) files) = aggregate previous files.
Proof.
  unfold aggregate.
  generalize (writerow (mkAgg 0 0 (open_w previous)) header) as st.
  induction files as [|f files IH]; intros st; [reflexivity|].
  simpl. destruct f as [|hd rows]; [reflexivity|]. simpl.
  destruct (process_rows st rows) as [s|e s]; simpl; [apply IH | reflexivity].
Qed.

Lemma Permutation_data_rows (files files' : list csv_file) :
  Permutation files files' -> Permutation (data_rows files) (data_rows files').
Proof.
  unfold data_rows. induction 1 as [| f l l' _ IH | f1 f2 l | l1 l2 l3 _ IH1 _ IH2]; simpl.
  - constructor.
  - now apply Permutation_app_head.
  - rewrite !app_assoc. apply Permutation_app_tail, Permutation_app_comm.
  - now transitivity (concat (map (@tl row) l2)).
Qed.

Lemma Permutation_filter_rows (f : row -> bool) (l l' : list row) :
  Permutation l l' -> Permutation (filter f l) (filter f l').
Proof.
  induction 1 as [| x l l' _ IH | x y l | l1 l2 l3 _ IH1 _ IH2]; simpl.
  - constructor.
  - destruct (f x); [now constructor | exact IH].
  - destruct (f x), (f y); try reflexivity. apply perm_swap.
  - now transitivity (filter f l2).
Qed.

(** X7. The counters do not depend on the order in which the files are
    discovered, and the records of the output file are the same up to their
    order: when the run completes for one order of the files, it completes
    for every other order, prints the same Read, Written and Discarded, and
    writes a permutation of the same records after the header. *)
Theorem aggregate_counters_ignore_discovery_order
        (previous : option string) (files files' : list csv_file) :
  Permutation files files' ->
  returns (aggregate previous files) = true ->
  returns (aggregate previous files') = true
  /\ counters (aggregate previous files') = counters (aggregate previous files)
  /\ exists recs recs' : list (list string),
       output_file (final_state (aggregate previous files))
       = Csv.format_rows (header :: recs)
       /\ output_file (final_state (aggregate previous files'))
          = Csv.format_rows (header :: recs')
       /\ Permutation recs recs'.
Proof.
  intros P H. rewrite aggregate_returns in H.
  assert (H' : inputs_ok files' = true).
  { unfold inputs_ok in *. rewrite forallb_forall in *.
    intros f Hf. apply H. apply Permutation_in with (l := files'); auto.
    now symmetry. }
  pose proof (Permutation_data_rows P) as PD.
  pose proof (Permutation_filter_rows qualifies PD) as PF.
  rewrite aggregate_returns, (aggregate_ok previous _ H),
    (aggregate_ok previous _ H').
  cbn [final_state output_file counters read written].
  split; [exact H'|]. split.
  - now rewrite (Permutation_length PD), (Permutation_length PF).
  - eexists. eexists. split; [reflexivity|]. split; [reflexivity|].
    now apply Permutation_map.
Qed.

Lemma aggregate_counters_ignore_discovery_order_witness :
  counters (aggregate None [[raw_header; short_login_row]; sample_file])
  = counters (aggregate None [sample_file; [raw_header; short_login_row]]).
Proof.
  destruct (@aggregate_counters_ignore_discovery_order None
              [sample_file; [raw_header; short_login_row]]
              [[raw_header; short_login_row]; sample_file])
    as [_ [H _]].
  - apply perm_swap.
  - reflexivity.
  - exact H.
Defined.

(** ** Loading *)

Lemma inserts_app (df1 df2 : list event) :
  inserts (df1 ++ df2) = inserts df1 ++ inserts df2.
Proof. unfold inserts. now rewrite map_app, concat_app. Qed.

Lemma inserts_concat (dfs : list (list event)) :
  concat (map inserts dfs) = inserts (concat dfs).
Proof.
  induction dfs as [|df dfs IH]; [reflexivity|].
  simpl. now rewrite IH, inserts_app.
Qed.

Lemma chunks_fuel_bounded (A : Type) (size fuel : nat) (l : list A) :
  Forall (fun w => length w <= size) (chunks_fuel fuel size l).
Proof.
  revert l. induction fuel as [|fuel IH]; intros l; [constructor|].
  destruct l as [|a l]; [constructor|].
  cbn [chunks_fuel]. constructor; [apply firstn_le_length | apply IH].
Qed.

Lemma read_csv_bounded (A : Type) (size : nat) (l : list A) :
  Forall (fun w => length w <= size) (read_csv size l).
Proof.
  destruct l as [|a l].
  - constructor; [simpl; lia | constructor].
  - apply chunks_fuel_bounded.
Qed.




Section LoaderFurther.

Variable session_execute : nat -> list statement -> exec_result.

Lemma load_chunks_cons (st : load_state) (df : list event)
      (dfs : list (list event)) :
  load_chunks session_execute st (df :: dfs)
  = load_chunks session_execute (process_chunk session_execute st df) dfs.
Proof. reflexivity. Qed.

Lemma load_chunks_accepting (dfs : list (list event)) (st : load_state) :
  (forall call b, session_execute call b = ExecOk) ->
  batch st = [] ->
  load_chunks session_execute st dfs
  = mkLoad (batches st + length dfs) (records st + 3 * length (concat dfs)) []
           (executed st ++ map inserts dfs) (stdout st).
Proof.
  intros Hok. revert st. induction dfs as [|df dfs IH]; intros st Hb.
  - destruct st as [b r bt ex out]. simpl in *. subst bt.
    now rewrite !Nat.add_0_r, app_nil_r.
  - rewrite load_chunks_cons, process_chunk_spec. unfold answer, submitted.
    rewrite Hok, Hb. cbn [failed failure_report app].
    rewrite IH by reflexivity. cbn.
    rewrite length_app, app_nil_r, <- app_assoc. f_equal; lia.
Qed.

Lemma accepted_from_snoc (sent : list (list statement)) (call : nat)
      (b : list statement) :
  accepted_from session_execute call (sent ++ [b])
  = accepted_from session_execute call sent
      ++ (if failed (session_execute (call + length sent) b) then [] else b).
Proof.
  revert call. induction sent as [|a sent IH]; intros call; simpl.
  - now rewrite Nat.add_0_r, app_nil_r.
  - now rewrite IH, Nat.add_succ_r, app_assoc.
Qed.

Lemma delivered_process_chunk (st : load_state) (df : list event) :
  accepted session_execute (process_chunk session_execute st df)
    ++ batch (process_chunk session_execute st df)
  = (accepted session_execute st ++ batch st) ++ inserts df.
Proof.
  unfold accepted. rewrite process_chunk_spec. cbn.
  rewrite accepted_from_snoc. unfold answer, submitted. cbn.
  destruct (failed (session_execute (length (executed st))
                                    (batch st ++ inserts df))).
  - now rewrite !app_nil_r, app_assoc.
  - now rewrite !app_nil_r, !app_assoc.
Qed.

Lemma delivered_load_chunks (dfs : list (list event)) (st : load_state) :
  accepted session_execute (load_chunks session_execute st dfs)
    ++ batch (load_chunks session_execute st dfs)
  = (accepted session_execute st ++ batch st) ++ inserts (concat dfs).
Proof.
  revert st. induction dfs as [|df dfs IH]; intros st.
  - simpl. now rewrite app_nil_r.
  - rewrite load_chunks_cons, IH, delivered_process_chunk.
    simpl. now rewrite inserts_app, !app_assoc.
Qed.

Lemma failure_report_length (r : exec_result) :
  failed r = true -> length (failure_report r) = 2.
Proof. destruct r; [discriminate | reflexivity]. Qed.

Lemma load_chunks_rejecting (dfs : list (list event)) (st : load_state) :
  (forall call b, failed (session_execute call b) = true) ->
  let st' := load_chunks session_execute st dfs in
  batches st' = batches st
  /\ batch st' = batch st ++ inserts (concat dfs)
  /\ executed st'
     = executed st
       ++ map (fun k => batch st ++ inserts (concat (firstn (S k) dfs)))
              (seq 0 (length dfs))
  /\ length (stdout st') = length (stdout st) + 2 * length dfs.
Proof.
  intros Hf. cbv zeta. revert st.
  induction dfs as [|df dfs IH]; intros st.
  - simpl. rewrite !app_nil_r. repeat split; lia.
  - rewrite load_chunks_cons.
    destruct (IH (process_chunk session_execute st df)) as [Hb [Hbt [Hex Hout]]].
    rewrite Hb, Hbt, Hex, Hout, process_chunk_spec.
    unfold answer, submitted. rewrite Hf. cbn [batches batch executed stdout].
    rewrite length_app, failure_report_length by apply Hf.
    repeat split.
    + simpl. now rewrite inserts_app, app_assoc.
    + rewrite <- app_assoc. f_equal. cbn [length seq map app firstn concat].
      rewrite app_nil_r. f_equal.
      rewrite <- seq_shift, map_map. apply map_ext. intros k.
      cbn [firstn concat]. now rewrite inserts_app, app_assoc.
    + simpl. lia.
Qed.

End LoaderFurther.

(** A store that accepts everything, in a run in which no [batch.add]
    raises. *)
Lemma ideal_load_accepting
        (session_execute : nat -> list statement -> exec_result)
        (rows : list event) :
  (forall call b, session_execute call b = ExecOk) ->
  let st := load session_execute rows in
  executed st = map inserts (read_csv CHUNK_SIZE rows)
  /\ Forall (fun b => length b <= 3 * CHUNK_SIZE) (executed st)
  /\ concat (executed st) = inserts rows
  /\ batches st = length (read_csv CHUNK_SIZE rows)
  /\ batch st = []
  /\ stdout st = [].
Proof.
  intros Hok. cbv zeta. unfold load.
  rewrite (@load_chunks_accepting session_execute (read_csv CHUNK_SIZE rows)
             (mkLoad 0 0 [] [] []) Hok) by reflexivity.
  cbn [executed batches batch stdout app].
  repeat split.
  - apply Forall_map.
    apply Forall_impl with (P := fun w : list event => length w <= CHUNK_SIZE).
    + intros w Hw. rewrite inserts_length. lia.
    + apply read_csv_bounded.
  - rewrite inserts_concat, read_csv_concat; [reflexivity|].
    unfold CHUNK_SIZE. lia.
Qed.

(** A store that rejects everything, in a run in which no [batch.add]
    raises. *)
Lemma ideal_load_rejecting
        (session_execute : nat -> list statement -> exec_result)
        (rows : list event) :
  (forall call b, failed (session_execute call b) = true) ->
  let st := load session_execute rows in
  let windows := read_csv CHUNK_SIZE rows in
  executed st
  = map (fun k => inserts (concat (firstn (S k) windows)))
        (seq 0 (length windows))
  /\ batch st = inserts rows
  /\ batches st = 0
  /\ length (stdout st) = 2 * length windows.
Proof.
  intros Hf. cbv zeta. unfold load.
  destruct (@load_chunks_rejecting session_execute (read_csv CHUNK_SIZE rows)
              (mkLoad 0 0 [] [] []) Hf) as [Hb [Hbt [Hex Hout]]].
  rewrite Hb, Hbt, Hex, Hout. cbn.
  rewrite read_csv_concat by (unfold CHUNK_SIZE; lia).
  repeat split; lia.
Qed.

(** X12. Every insert is bound to the values its prepared statement expects.
    For each record there is one statement per table, in the order
    songs_by_session, songs_by_user, users_by_song; its parameters are the
    record's values for the columns named by the table's INSERT, in that
    order, one per [?] marker; these columns are exactly the columns the
    table declares, and every primary-key column is among them. *)
Theorem inserts_match_prepared_statements (r : event) :
  map fst (inserts_of r) = [songs_by_session; songs_by_user; users_by_song]
  /\ forall (t : table) (params : list value),
       In (t, params) (inserts_of r) ->
       params = map (cell r) (insert_columns t)
       /\ length params = placeholders t
       /\ insert_columns t = declared_columns t
       /\ incl (primary_key t) (insert_columns t).
Proof.
  split; [reflexivity|].
  intros t params H. simpl in H.
  destruct H as [H | [H | [H | []]]]; injection H as <- <-;
    (repeat split; try reflexivity);
    intros c Hc; simpl in Hc; simpl;
    repeat (destruct Hc as [<- | Hc]; [tauto|]); contradiction.
Qed.

Lemma inserts_match_prepared_statements_witness :
  select sample_event users_by_song_columns
  = map (cell sample_event) (insert_columns users_by_song)
  /\ length (select sample_event users_by_song_columns) = 4.
Proof.
  destruct (inserts_match_prepared_statements sample_event) as [_ H].
  destruct (H users_by_song (select sample_event users_by_song_columns))
    as [E [L _]].
  - simpl. tauto.
  - split; [exact E | exact L].
Defined.

(** ** Creating and dropping the tables *)

Lemma table_eqb_eq (a b : table) : table_eqb a b = true <-> a = b.
Proof. destruct a, b; simpl; split; congruence. Qed.

Lemma table_eqb_sym (a b : table) : table_eqb a b = table_eqb b a.
Proof. destruct a, b; reflexivity. Qed.

Lemma exists_without (t u : table) (l : list table) :
  existsb (table_eqb u) (without t l)
  = existsb (table_eqb u) l && negb (table_eqb t u).
Proof. apply exists_after_drop. Qed.

(** The "Drop the tables" cell, by the tables that exist when it starts. *)
Lemma drop_tables_spec (s : store) :
  drop_tables s =
    if exists_table s songs_by_session then
      if exists_table s songs_by_user then
        if exists_table s users_by_song then
          mkStore (without users_by_song
                     (without songs_by_user (without songs_by_session (tables s))))
                  (session_open s) (cluster_open s)
                  (drops_received s ++ all_tables) (printed s)
        else
          mkStore (without songs_by_user (without songs_by_session (tables s)))
                  (session_open s) (cluster_open s)
                  (drops_received s ++ all_tables) (printed s ++ drop_report)
      else
        mkStore (without songs_by_session (tables s))
                (session_open s) (cluster_open s)
                (drops_received s ++ [songs_by_session; songs_by_user])
                (printed s ++ drop_report)
    else
      mkStore (tables s) (session_open s) (cluster_open s)
              (drops_received s ++ [songs_by_session])
              (printed s ++ drop_report).
Proof.
  destruct s as [ts so co dr pr].
  unfold drop_tables, all_tables, without.
  cbn [run_drops]. unfold execute_drop, exists_table.
  cbn [tables session_open cluster_open drops_received printed].
  destruct (existsb (table_eqb songs_by_session) ts) eqn:E1;
    destruct (existsb (table_eqb songs_by_user) ts) eqn:E2;
    destruct (existsb (table_eqb users_by_song) ts) eqn:E3;
    repeat (rewrite ?exists_after_drop, ?E1, ?E2, ?E3; eval_table_eqb;
            cbn [andb negb tables session_open cluster_open
                 drops_received printed]);
    rewrite <- ?app_assoc; reflexivity.
Qed.

Lemma drop_tables_removes_first (s : store) :
  exists_table (drop_tables s) songs_by_session = false.
Proof.
  rewrite drop_tables_spec. unfold exists_table.
  destruct (existsb (table_eqb songs_by_session) (tables s)) eqn:E1;
    [|exact E1].
  destruct (existsb (table_eqb songs_by_user) (tables s));
    [destruct (existsb (table_eqb users_by_song) (tables s))|];
    cbn [tables]; rewrite !exists_without, E1; reflexivity.
Qed.

(** X13. Running the "Drop the tables" cell a second time never drops
    anything: whatever the keyspace held before the first run, the second
    run fails on its first statement, sends no other, prints one report and
    leaves the tables that survived the first run where they are. *)
Theorem second_drop_reports_and_drops_nothing (s : store) :
  let s1 := drop_tables s in
  let s2 := drop_tables s1 in
  tables s2 = tables s1
  /\ drops_received s2 = drops_received s1 ++ [songs_by_session]
  /\ printed s2 = printed s1 ++ drop_report.
Proof.
  cbv zeta. rewrite (drop_tables_spec (drop_tables s)).
  rewrite drop_tables_removes_first. repeat split.
Qed.

Lemma app_not_fixed (l extra : list string) :
  extra <> [] -> l ++ extra <> l.
Proof.
  intros N E. apply (f_equal (@length string)) in E.
  rewrite length_app in E. destruct extra; [contradiction | simpl in E; lia].
Qed.

Lemma all_exist_iff (s : store) :
  (forall t, exists_table s t = true)
  <-> exists_table s songs_by_session
      && exists_table s songs_by_user
      && exists_table s users_by_song = true.
Proof.
  rewrite !andb_true_iff. split.
  - intros H. repeat split; apply H.
  - intros [[H1 H2] H3] t. destruct t; assumption.
Qed.

Lemma drop_tables_printed (s : store) :
  printed (drop_tables s)
  = if exists_table s songs_by_session
       && exists_table s songs_by_user
       && exists_table s users_by_song
    then printed s else printed s ++ drop_report.
Proof.
  rewrite drop_tables_spec.
  destruct (exists_table s songs_by_session);
    destruct (exists_table s songs_by_user);
    destruct (exists_table s users_by_song); reflexivity.
Qed.

Lemma drop_tables_only_removes (s : store) (t : table) :
  exists_table (drop_tables s) t = true -> exists_table s t = true.
Proof.
  rewrite drop_tables_spec.
  destruct (exists_table s songs_by_session);
    [destruct (exists_table s songs_by_user);
     [destruct (exists_table s users_by_song)|]|];
    unfold exists_table; cbn [tables]; rewrite ?exists_without; intros H;
    repeat (apply andb_true_iff in H; destruct H as [H _]); exact H.
Qed.

Lemma drop_tables_removes_all (s : store) :
  (forall t, exists_table s t = true) ->
  forall t, exists_table (drop_tables s) t = false.
Proof.
  intros H t. rewrite drop_tables_spec, !H. unfold exists_table.
  cbn [tables]. rewrite !exists_without.
  fold (exists_table s t). rewrite H. destruct t; reflexivity.
Qed.

(** X14. The "Drop the tables" cell prints nothing exactly when the three
    tables exist when it starts, and then none of them is left; in every
    case the cell takes tables away and never adds one. *)
Theorem drop_tables_silent_iff_all_exist (s : store) :
  (printed (drop_tables s) = printed s
   <-> forall t, exists_table s t = true)
  /\ ((forall t, exists_table s t = true) ->
      forall t, exists_table (drop_tables s) t = false)
  /\ (forall t, exists_table (drop_tables s) t = true ->
                exists_table s t = true).
Proof.
  split; [|split].
  - rewrite all_exist_iff, drop_tables_printed.
    destruct (exists_table s songs_by_session
              && exists_table s songs_by_user
              && exists_table s users_by_song).
    + split; reflexivity.
    + split; [|discriminate].
      intros H. exfalso. revert H. apply app_not_fixed. discriminate.
  - apply drop_tables_removes_all.
  - apply drop_tables_only_removes.
Qed.

Lemma drop_tables_silent_iff_all_exist_witness :
  printed (drop_tables all_created) = []
  /\ exists_table (drop_tables only_last_table) users_by_song = true.
Proof.
  destruct (drop_tables_silent_iff_all_exist all_created) as [[_ H] _].
  split.
  - apply H. intros t. destruct t; reflexivity.
  - reflexivity.
Defined.

Lemma create_table_exists (s : store) (t u : table) :
  exists_table (create_table s t) u = exists_table s u || table_eqb t u.
Proof.
  unfold create_table, execute_create.
  destruct (exists_table s t) eqn:E.
  - destruct (table_eqb t u) eqn:Etu.
    + apply table_eqb_eq in Etu. subst u. rewrite E. reflexivity.
    + now rewrite orb_false_r.
  - unfold exists_table. cbn [tables]. rewrite existsb_app. simpl.
    now rewrite orb_false_r, (table_eqb_sym u t).
Qed.

Lemma create_table_existing (s : store) (t : table) :
  exists_table s t = true -> create_table s t = s.
Proof. intros E. unfold create_table, execute_create. now rewrite E. Qed.

Lemma create_table_log (s : store) (t : table) :
  printed (create_table s t) = printed s
  /\ drops_received (create_table s t) = drops_received s.
Proof.
  unfold create_table, execute_create.
  destruct (exists_table s t); split; reflexivity.
Qed.

Lemma create_tables_exist (s : store) (t : table) :
  exists_table (create_tables s) t = true.
Proof.
  unfold create_tables. rewrite !create_table_exists.
  destruct t; simpl; rewrite ?orb_true_r; reflexivity.
Qed.

(** X15. After the three "Table n" cells the three tables exist, whatever
    the keyspace held before, and the cells print nothing; running the
    cells again changes nothing; and the "Drop the tables" cell that
    follows sends its three statements, prints nothing and leaves none of
    the three tables. *)
Theorem create_then_drop_is_clean (s : store) :
  (forall t, exists_table (create_tables s) t = true)
  /\ printed (create_tables s) = printed s
  /\ create_tables (create_tables s) = create_tables s
  /\ (forall t, exists_table s t = true -> exists_table (create_tables s) t = true)
  /\ (let s' := drop_tables (create_tables s) in
      printed s' = printed s
      /\ drops_received s' = drops_received s ++ all_tables
      /\ forall t, exists_table s' t = false).
Proof.
  assert (Hlog : printed (create_tables s) = printed s
                 /\ drops_received (create_tables s) = drops_received s).
  { unfold create_tables.
    destruct (create_table_log
                (create_table (create_table s songs_by_session) songs_by_user)
                users_by_song) as [P3 D3].
    destruct (create_table_log (create_table s songs_by_session) songs_by_user)
      as [P2 D2].
    destruct (create_table_log s songs_by_session) as [P1 D1].
    split; congruence. }
  destruct Hlog as [Hp Hd].
  split; [apply create_tables_exist|].
  split; [exact Hp|].
  split; [|split].
  - unfold create_tables at 1.
    rewrite (create_table_existing (create_tables s) songs_by_session)
      by apply create_tables_exist.
    rewrite (create_table_existing (create_tables s) songs_by_user)
      by apply create_tables_exist.
    apply create_table_existing, create_tables_exist.
  - intros t _. apply create_tables_exist.
  - cbv zeta. split; [|split].
    + rewrite drop_tables_printed, !create_tables_exist. exact Hp.
    + rewrite drop_tables_spec, !create_tables_exist.
      cbn [drops_received]. now rewrite Hd.
    + apply drop_tables_removes_all, create_tables_exist.
Qed.

Lemma create_then_drop_is_clean_witness :
  exists_table (create_tables only_last_table) users_by_song = true
  /\ printed (drop_tables (create_tables only_last_table)) = [].
Proof.
  destruct (create_then_drop_is_clean only_last_table)
    as [_ [_ [_ [H [D _]]]]].
  split; [apply H; reflexivity | exact D].
Defined.

(** ** Counters of a run in which no [batch.add] raises *)

Lemma load_records (session_execute : nat -> list statement -> exec_result)
      (rows : list event) :
  records (load session_execute rows) = 3 * length rows.
Proof.
  unfold load. rewrite load_chunks_records, read_csv_concat.
  - reflexivity.
  - unfold CHUNK_SIZE. lia.
Qed.

Lemma load_submissions (session_execute : nat -> list statement -> exec_result)
      (rows : list event) :
  rows <> [] ->
  length (executed (load session_execute rows))
  = ceil_div (length rows) CHUNK_SIZE.
Proof.
  intros N. unfold load.
  destruct (load_chunks_executed session_execute (read_csv CHUNK_SIZE rows)
              (mkLoad 0 0 [] [] [])) as [sent [E [L _]]].
  rewrite E. cbn [executed app]. rewrite L.
  apply read_csv_length; [unfold CHUNK_SIZE; lia | exact N].
Qed.

(** ** The content of every submission *)

Lemma load_chunks_recurrence
      (session_execute : nat -> list statement -> exec_result)
      (dfs : list (list event)) (st : load_state) :
  exists sent : list (list statement),
    executed (load_chunks session_execute st dfs) = executed st ++ sent
    /\ (forall df, nth_error dfs 0 = Some df ->
          nth_error sent 0 = Some (batch st ++ inserts df))
    /\ (forall j b df,
          nth_error sent j = Some b ->
          nth_error dfs (S j) = Some df ->
          nth_error sent (S j)
          = Some ((if failed (session_execute (length (executed st) + j) b)
                   then b else [])
                  ++ inserts df)).
Proof.
  revert st. induction dfs as [|df0 dfs IH]; intros st.
  - exists []. simpl. rewrite app_nil_r. repeat split.
    + intros df H. discriminate H.
    + intros j b df H. destruct j; discriminate H.
  - rewrite load_chunks_cons.
    destruct (IH (process_chunk session_execute st df0)) as [sent [E [H0 HS]]].
    assert (Ex : executed (process_chunk session_execute st df0)
                 = executed st ++ [batch st ++ inserts df0]).
    { rewrite process_chunk_spec. reflexivity. }
    assert (Bt : batch (process_chunk session_execute st df0)
                 = if failed (session_execute (length (executed st))
                                              (batch st ++ inserts df0))
                   then batch st ++ inserts df0 else []).
    { rewrite process_chunk_spec. reflexivity. }
    rewrite Ex in E, HS. rewrite Bt in H0.
    exists ((batch st ++ inserts df0) :: sent). split; [|split].
    + rewrite E, <- app_assoc. reflexivity.
    + intros df H. simpl in H. injection H as <-. reflexivity.
    + intros [|j] b df Hb Hdf.
      * injection Hb as <-. rewrite Nat.add_0_r. exact (H0 df Hdf).
      * pose proof (HS j b df Hb Hdf) as R.
        rewrite length_app in R. cbn [length] in R.
        replace (length (executed st) + 1 + j)
          with (length (executed st) + S j) in R by lia.
        exact R.
Qed.

(** What each submission carries, in a run in which no [batch.add] raises. *)
Lemma ideal_submission_contents
        (session_execute : nat -> list statement -> exec_result)
        (rows : list event) :
  let st := load session_execute rows in
  let windows := read_csv CHUNK_SIZE rows in
  (forall df, nth_error windows 0 = Some df ->
      nth_error (executed st) 0 = Some (inserts df))
  /\ (forall k b df,
        nth_error (executed st) k = Some b ->
        nth_error windows (S k) = Some df ->
        nth_error (executed st) (S k)
        = Some ((if failed (session_execute k b) then b else [])
                ++ inserts df)).
Proof.
  cbv zeta. unfold load.
  destruct (load_chunks_recurrence session_execute (read_csv CHUNK_SIZE rows)
              (mkLoad 0 0 [] [] [])) as [sent [E [H0 HS]]].
  rewrite E. cbn [executed batch app length Nat.add] in *.
  split; [exact H0 | exact HS].
Qed.

(** ** The test queries *)

Lemma getattrs_values (attributes : list string) (r : result_row) :
  has_attributes attributes r ->
  getattrs r attributes = inl (values_of attributes r).
Proof.
  induction attributes as [|a rest IH]; intros H; [reflexivity|].
  simpl. assert (Ha : getattr r a <> None) by (apply H; now left).
  destruct (getattr r a) as [v|]; [|contradiction].
  rewrite IH; [reflexivity|]. intros b Hb. apply H. now right.
Qed.

Lemma print_rows_all (format : list value -> string)
      (attributes : list string) (rs : list result_row) (nb : notebook) :
  Forall (has_attributes attributes) rs ->
  print_rows format attributes rs nb
  = Done (mkNotebook (nb_rows nb)
            (nb_stdout nb ++ map (fun r => format (values_of attributes r)) rs)).
Proof.
  intros H. revert nb. induction H as [|r rs Hr _ IH]; intros nb.
  - destruct nb. simpl. now rewrite app_nil_r.
  - simpl. rewrite (getattrs_values Hr), IH. simpl.
    now rewrite <- app_assoc.
Qed.

(** X18. A test cell whose query succeeds prints one line per returned row,
    in order, and nothing for an empty result. A test cell whose query fails
    prints the exception (after the banner "Error while initializing the
    database" in the third cell) and then, when no earlier cell ever
    assigned [rows], ends on a NameError for [rows]: the loop over the rows
    is outside the [try]. *)
Theorem test_cell_outcomes
        (banner : list string) (format : list value -> string)
        (attributes : list string) (nb : notebook) :
  (forall rs, Forall (has_attributes attributes) rs ->
     test_cell banner format attributes (QueryOk rs) nb
     = Done (mkNotebook (Some rs)
               (nb_stdout nb
                ++ map (fun r => format (values_of attributes r)) rs)))
  /\ (forall text, nb_rows nb = None ->
        test_cell banner format attributes (QueryError text) nb
        = Failed (NameError "rows")
                 (mkNotebook None (nb_stdout nb ++ banner ++ [text])))
  /\ (forall text, nb_rows nb = None ->
        test_1 (QueryError text) nb
        = Failed (NameError "rows") (mkNotebook None (nb_stdout nb ++ [text]))
        /\ test_3 (QueryError text) nb
           = Failed (NameError "rows")
               (mkNotebook None
                  (nb_stdout nb
                   ++ ["Error while initializing the database"; text]))).
Proof.
  split; [|split].
  - intros rs H. unfold test_cell. cbn [nb_rows].
    now rewrite (print_rows_all _ _ H).
  - intros text H. unfold test_cell. cbn [nb_rows]. now rewrite H.
  - intros text H. unfold test_1, test_3, test_cell. cbn [nb_rows].
    rewrite H. split; reflexivity.
Qed.

Lemma test_cell_outcomes_witness :
  test_1 (QueryOk [sample_result_row]) (mkNotebook None [])
  = Done (mkNotebook (Some [sample_result_row])
            ["Faithless | Music Matters | 495.3073"])
  /\ test_1 (QueryError "timeout") (mkNotebook None [])
     = Failed (NameError "rows") (mkNotebook None ["timeout"]).
Proof.
  destruct (@test_cell_outcomes [] format_1
              ["artist_name"; "song_title"; "song_length"] (mkNotebook None []))
    as [Hok [Herr _]].
  split.
  - unfold test_1. rewrite Hok; [reflexivity|].
    constructor; [|constructor].
    intros a Ha. simpl in Ha.
    repeat (destruct Ha as [<- | Ha]; [discriminate|]). contradiction.
  - unfold test_1. rewrite Herr; reflexivity.
Defined.

(* ================================================================== *)
(** * The loader with the exceptions of [batch.add] *)

(** 65535 statements are 218 full windows of 300 statements and 135 more. *)
Lemma batch_limit_value : BATCH_LIMIT = 218 * (3 * CHUNK_SIZE) + 135.
Proof. reflexivity. Qed.

Lemma add_row_batch_length (st : load_state) (r : event) :
  length (batch (add_row st r)) = length (batch st) + 3.
Proof. unfold add_row, batch_append. cbn. rewrite !length_app. simpl. lia. Qed.

Lemma add_row_batch (st : load_state) (r : event) :
  batch (add_row st r) = batch st ++ inserts_of r.
Proof. unfold add_row, batch_append. cbn. now rewrite <- !app_assoc. Qed.

Section DriverFacts.

Variable binds : table -> list value -> bool.
Variable session_execute : nat -> list statement -> exec_result.

Lemma process_chunk_submit (st : load_state) (df : list event) :
  process_chunk session_execute st df
  = submit session_execute (fold_left add_row df st).
Proof. reflexivity. Qed.

(** *** One [batch.add] *)

Lemma batch_add_ok (st : load_state) (q : table) (p : list value) :
  binds q p = true -> length (batch st) < BATCH_LIMIT ->
  batch_add binds st q p = Completed (batch_append st q p).
Proof.
  intros B L. unfold batch_add. rewrite B.
  destruct (Nat.leb_spec BATCH_LIMIT (length (batch st))); [lia | reflexivity].
Qed.

Lemma batch_add_full (st : load_state) (q : table) (p : list value) :
  binds q p = true -> BATCH_LIMIT <= length (batch st) ->
  batch_add binds st q p = Crashed BatchFull st.
Proof.
  intros B L. unfold batch_add. rewrite B.
  destruct (Nat.leb_spec BATCH_LIMIT (length (batch st))); [reflexivity | lia].
Qed.

Lemma batch_add_unbound (st : load_state) (q : table) (p : list value) :
  binds q p = false -> batch_add binds st q p = Crashed BindError st.
Proof. intros B. unfold batch_add. now rewrite B. Qed.

(** The three ways a [batch.add] ends. *)
Lemma batch_add_cases (st : load_state) (q : table) (p : list value) :
  (binds q p = false /\ batch_add binds st q p = Crashed BindError st)
  \/ (binds q p = true /\ BATCH_LIMIT <= length (batch st)
      /\ batch_add binds st q p = Crashed BatchFull st)
  \/ (binds q p = true /\ length (batch st) < BATCH_LIMIT
      /\ batch_add binds st q p = Completed (batch_append st q p)).
Proof.
  destruct (binds q p) eqn:B.
  - destruct (Nat.le_gt_cases BATCH_LIMIT (length (batch st))) as [L|L].
    + right. left. auto using batch_add_full.
    + right. right. auto using batch_add_ok.
  - left. auto using batch_add_unbound.
Qed.

(** *** The three calls of a row *)

Lemma row_binds_iff (r : event) :
  row_binds binds r = true <->
  binds songs_by_session (select r songs_by_session_columns) = true
  /\ binds songs_by_user (select r songs_by_user_columns) = true
  /\ binds users_by_song (select r users_by_song_columns) = true.
Proof.
  unfold row_binds, inserts_of. cbn [forallb fst snd].
  rewrite !andb_true_iff. tauto.
Qed.

Lemma batch_append_length (st : load_state) (q : table) (p : list value) :
  length (batch (batch_append st q p)) = S (length (batch st)).
Proof. unfold batch_append. cbn. rewrite length_app. simpl. lia. Qed.

Lemma run_add_row_ok (st : load_state) (r : event) :
  row_binds binds r = true -> length (batch st) + 3 <= BATCH_LIMIT ->
  run_add_row binds st r = Completed (add_row st r).
Proof.
  intros B L. apply row_binds_iff in B. destruct B as [B1 [B2 B3]].
  unfold run_add_row.
  rewrite (@batch_add_ok _ _ _ B1) by lia. cbn [and_then].
  rewrite (@batch_add_ok _ _ _ B2) by (rewrite batch_append_length; lia).
  cbn [and_then].
  rewrite (@batch_add_ok _ _ _ B3) by (rewrite !batch_append_length; lia).
  reflexivity.
Qed.

Lemma run_add_row_completed (st st' : load_state) (r : event) :
  run_add_row binds st r = Completed st' ->
  st' = add_row st r /\ row_binds binds r = true
  /\ length (batch st) + 3 <= BATCH_LIMIT.
Proof.
  unfold run_add_row. intros H.
  destruct (batch_add_cases st songs_by_session
              (select r songs_by_session_columns))
    as [[_ E1] | [[_ [_ E1]] | [B1 [L1 E1]]]];
    rewrite E1 in H; cbn [and_then] in H; try discriminate H.
  destruct (batch_add_cases
              (batch_append st songs_by_session (select r songs_by_session_columns))
              songs_by_user (select r songs_by_user_columns))
    as [[_ E2] | [[_ [_ E2]] | [B2 [L2 E2]]]];
    rewrite E2 in H; cbn [and_then] in H; try discriminate H.
  destruct (batch_add_cases
              (batch_append
                 (batch_append st songs_by_session (select r songs_by_session_columns))
                 songs_by_user (select r songs_by_user_columns))
              users_by_song (select r users_by_song_columns))
    as [[_ E3] | [[_ [_ E3]] | [B3 [L3 E3]]]];
    rewrite E3 in H; cbn [and_then] in H; try discriminate H.
  injection H as <-. rewrite !batch_append_length in L3.
  split; [reflexivity|]. split; [|lia].
  apply row_binds_iff. auto.
Qed.

(** Adding a row, whether it ends well or not, only puts statements of the
    row at the end of the batch. *)
Lemma run_add_row_ended (st : load_state) (r : event) :
  let e := ended_in (run_add_row binds st r) in
  executed e = executed st /\ batches e = batches st /\ stdout e = stdout st
  /\ exists rest, batch e ++ rest = batch st ++ inserts_of r.
Proof.
  cbv zeta. unfold run_add_row.
  destruct (batch_add_cases st songs_by_session
              (select r songs_by_session_columns))
    as [[_ E1] | [[_ [_ E1]] | [_ [_ E1]]]];
    rewrite E1; cbn [and_then ended_in];
    try (repeat split; eexists; reflexivity).
  destruct (batch_add_cases
              (batch_append st songs_by_session (select r songs_by_session_columns))
              songs_by_user (select r songs_by_user_columns))
    as [[_ E2] | [[_ [_ E2]] | [_ [_ E2]]]];
    rewrite E2; cbn [and_then ended_in];
    try (repeat split; unfold batch_append; cbn; eexists;
         rewrite <- !app_assoc; reflexivity).
  destruct (batch_add_cases
              (batch_append
                 (batch_append st songs_by_session (select r songs_by_session_columns))
                 songs_by_user (select r songs_by_user_columns))
              users_by_song (select r users_by_song_columns))
    as [[_ E3] | [[_ [_ E3]] | [_ [_ E3]]]];
    rewrite E3; cbn [and_then ended_in];
    repeat split; unfold batch_append; cbn; eexists;
    rewrite <- !app_assoc; cbn; reflexivity.
Qed.

Lemma run_add_row_full (st : load_state) (r : event) :
  row_binds binds r = true ->
  length (batch st) <= BATCH_LIMIT -> BATCH_LIMIT < length (batch st) + 3 ->
  exists st', run_add_row binds st r = Crashed BatchFull st'
              /\ length (batch st') = BATCH_LIMIT.
Proof.
  intros B L1 L2. apply row_binds_iff in B. destruct B as [B1 [B2 B3]].
  unfold run_add_row.
  destruct (Nat.le_gt_cases BATCH_LIMIT (length (batch st))) as [F1|F1].
  { rewrite (@batch_add_full _ _ _ B1 F1). cbn [and_then].
    eexists. split; [reflexivity | lia]. }
  rewrite (@batch_add_ok _ _ _ B1 F1). cbn [and_then].
  set (st1 := batch_append st songs_by_session (select r songs_by_session_columns)).
  assert (H1 : length (batch st1) = S (length (batch st)))
    by apply batch_append_length.
  destruct (Nat.le_gt_cases BATCH_LIMIT (length (batch st1))) as [F2|F2].
  { rewrite (@batch_add_full _ _ _ B2 F2). cbn [and_then].
    eexists. split; [reflexivity | lia]. }
  rewrite (@batch_add_ok _ _ _ B2 F2). cbn [and_then].
  set (st2 := batch_append st1 songs_by_user (select r songs_by_user_columns)).
  assert (H2 : length (batch st2) = S (length (batch st1)))
    by apply batch_append_length.
  rewrite (@batch_add_full st2 _ _ B3) by lia. cbn [and_then].
  eexists. split; [reflexivity | lia].
Qed.

(** *** The rows of a chunk *)

Lemma run_add_rows_ok (df : list event) (st : load_state) :
  (forall r, In r df -> row_binds binds r = true) ->
  length (batch st) + 3 * length df <= BATCH_LIMIT ->
  run_add_rows binds st df = Completed (fold_left add_row df st).
Proof.
  revert st. induction df as [|r df IH]; intros st B L; [reflexivity|].
  cbn [run_add_rows fold_left].
  rewrite run_add_row_ok; [|apply B; now left | cbn [length] in L; lia].
  cbn [and_then]. apply IH.
  - intros r' Hr'. apply B. now right.
  - rewrite add_row_batch_length. cbn [length] in L. lia.
Qed.

Lemma run_add_rows_completed (df : list event) (st st' : load_state) :
  run_add_rows binds st df = Completed st' ->
  st' = fold_left add_row df st
  /\ (forall r, In r df -> row_binds binds r = true)
  /\ (length (batch st) <= BATCH_LIMIT -> length (batch st') <= BATCH_LIMIT).
Proof.
  revert st. induction df as [|r df IH]; intros st H.
  - injection H as <-. repeat split; [intros r [] | auto].
  - cbn [run_add_rows] in H.
    destruct (run_add_row binds st r) as [st1|e st1] eqn:E; [|discriminate H].
    cbn [and_then] in H.
    apply run_add_row_completed in E. destruct E as [-> [Br Lr]].
    destruct (IH _ H) as [-> [B L]]. split; [reflexivity|]. split.
    + intros r' [<- | Hr']; auto.
    + intros _. apply L. rewrite add_row_batch_length. lia.
Qed.

Lemma run_add_rows_ended (df : list event) (st : load_state) :
  let e := ended_in (run_add_rows binds st df) in
  executed e = executed st /\ batches e = batches st /\ stdout e = stdout st
  /\ exists rest, batch e ++ rest = batch st ++ inserts df.
Proof.
  cbv zeta. revert st. induction df as [|r df IH]; intros st.
  - cbn. repeat split. exists []. reflexivity.
  - cbn [run_add_rows].
    pose proof (run_add_row_ended st r) as Hr. cbv zeta in Hr.
    destruct (run_add_row binds st r) as [st1|e st1] eqn:E; cbn [and_then].
    + apply run_add_row_completed in E. destruct E as [-> _].
      destruct (IH (add_row st r)) as [Hx [Hb [Ho [rest Hrest]]]].
      change (executed (add_row st r)) with (executed st) in Hx.
      change (batches (add_row st r)) with (batches st) in Hb.
      change (stdout (add_row st r)) with (stdout st) in Ho.
      repeat split; try assumption.
      exists rest. rewrite Hrest, add_row_batch.
      unfold inserts. cbn [map concat]. now rewrite <- app_assoc.
    + cbn [ended_in] in *. destruct Hr as [Hx [Hb [Ho [rest Hrest]]]].
      repeat split; try assumption.
      exists (rest ++ inserts df). rewrite app_assoc, Hrest.
      unfold inserts. cbn [map concat]. now rewrite <- app_assoc.
Qed.

Lemma run_add_rows_full (df : list event) (st : load_state) :
  (forall r, In r df -> row_binds binds r = true) ->
  length (batch st) <= BATCH_LIMIT ->
  BATCH_LIMIT < length (batch st) + 3 * length df ->
  exists st', run_add_rows binds st df = Crashed BatchFull st'
              /\ length (batch st') = BATCH_LIMIT.
Proof.
  revert st. induction df as [|r df IH]; intros st B L1 L2.
  - cbn [length] in L2. lia.
  - cbn [run_add_rows]. cbn [length] in L2.
    destruct (Nat.le_gt_cases (length (batch st) + 3) BATCH_LIMIT) as [F|F].
    + rewrite run_add_row_ok; [|apply B; now left | exact F].
      cbn [and_then]. apply IH.
      * intros r' Hr'. apply B. now right.
      * rewrite add_row_batch_length. exact F.
      * rewrite add_row_batch_length. lia.
    + destruct (@run_add_row_full st r) as [st' [E Hl]];
        [apply B; now left | exact L1 | exact F |].
      rewrite E. cbn [and_then]. eauto.
Qed.

End DriverFacts.

Section DriverRuns.

Variable binds : table -> list value -> bool.
Variable session_execute : nat -> list statement -> exec_result.

(** *** One chunk *)

Lemma run_chunk_ok (st : load_state) (df : list event) :
  (forall r, In r df -> row_binds binds r = true) ->
  length (batch st) + 3 * length df <= BATCH_LIMIT ->
  run_chunk binds session_execute st df
  = Completed (process_chunk session_execute st df).
Proof.
  intros B L. unfold run_chunk.
  rewrite run_add_rows_ok; [reflexivity | exact B | exact L].
Qed.

Lemma run_chunk_completed (st st' : load_state) (df : list event) :
  run_chunk binds session_execute st df = Completed st' ->
  st' = process_chunk session_execute st df
  /\ (forall r, In r df -> row_binds binds r = true)
  /\ (length (batch st) <= BATCH_LIMIT ->
      length (batch st ++ inserts df) <= BATCH_LIMIT).
Proof.
  unfold run_chunk. intros H.
  destruct (run_add_rows binds st df) as [st1|e st1] eqn:E; [|discriminate H].
  cbn [and_then] in H. injection H as <-.
  apply run_add_rows_completed in E. destruct E as [-> [B L]].
  split; [reflexivity|]. split; [exact B|].
  intros Hl. specialize (L Hl). now rewrite add_rows_spec in L.
Qed.

Lemma run_chunk_crashed (st st' : load_state) (df : list event) (e : add_error) :
  run_chunk binds session_execute st df = Crashed e st' ->
  executed st' = executed st /\ batches st' = batches st
  /\ stdout st' = stdout st
  /\ exists rest, batch st' ++ rest = batch st ++ inserts df.
Proof.
  unfold run_chunk. intros H.
  pose proof (@run_add_rows_ended binds df st) as Hr. cbv zeta in Hr.
  destruct (run_add_rows binds st df) as [st1|e1 st1]; [discriminate H|].
  cbn [and_then] in H. injection H as _ <-. exact Hr.
Qed.

Lemma process_chunk_batch_length (st : load_state) (df : list event) :
  length (batch (process_chunk session_execute st df))
  <= length (batch st) + 3 * length df.
Proof.
  rewrite process_chunk_spec. cbn [batch]. unfold submitted.
  destruct (failed (answer session_execute st df)).
  - rewrite length_app, inserts_length. lia.
  - simpl. lia.
Qed.

(** *** The whole loop *)

Lemma run_chunks_cons (st : load_state) (df : list event)
      (dfs : list (list event)) :
  run_chunks binds session_execute st (df :: dfs)
  = and_then (run_chunk binds session_execute st df)
             (fun st' => run_chunks binds session_execute st' dfs).
Proof. reflexivity. Qed.

(** A run that reaches the final [print] is the run in which no
    [batch.add] raises; every record was bound, and no batch grew beyond
    the limit. *)
Lemma run_chunks_completed (dfs : list (list event)) (st st' : load_state) :
  run_chunks binds session_execute st dfs = Completed st' ->
  st' = load_chunks session_execute st dfs
  /\ (forall r, In r (concat dfs) -> row_binds binds r = true)
  /\ (length (batch st) <= BATCH_LIMIT ->
      Forall (fun b => length b <= BATCH_LIMIT) (executed st) ->
      Forall (fun b => length b <= BATCH_LIMIT) (executed st')).
Proof.
  revert st. induction dfs as [|df dfs IH]; intros st H.
  - injection H as <-. repeat split; [intros r [] | auto].
  - rewrite run_chunks_cons in H.
    destruct (run_chunk binds session_execute st df) as [st1|e st1] eqn:E;
      [|discriminate H].
    cbn [and_then] in H.
    apply run_chunk_completed in E. destruct E as [-> [B L]].
    destruct (IH _ H) as [-> [B' L']].
    split; [reflexivity|]. split.
    + intros r Hr. cbn [concat] in Hr. apply in_app_or in Hr.
      destruct Hr; auto.
    + intros Hl Hf. specialize (L Hl). apply L'.
      * rewrite process_chunk_spec. cbn [batch]. unfold submitted.
        destruct (failed (answer session_execute st df)); [exact L | simpl; lia].
      * rewrite process_chunk_spec. cbn [executed]. unfold submitted.
        apply Forall_app. split; [exact Hf | constructor; [exact L | constructor]].
Qed.

Lemma run_chunks_small (dfs : list (list event)) (st : load_state) :
  (forall r, In r (concat dfs) -> row_binds binds r = true) ->
  length (batch st) + 3 * length (concat dfs) <= BATCH_LIMIT ->
  run_chunks binds session_execute st dfs
  = Completed (load_chunks session_execute st dfs).
Proof.
  revert st. induction dfs as [|df dfs IH]; intros st B L; [reflexivity|].
  cbn [concat] in B, L. rewrite length_app in L.
  rewrite run_chunks_cons, run_chunk_ok.
  - cbn [and_then]. rewrite load_chunks_cons. apply IH.
    + intros r Hr. apply B, in_or_app. now right.
    + pose proof (process_chunk_batch_length st df). lia.
  - intros r Hr. apply B, in_or_app. now left.
  - lia.
Qed.

Lemma run_chunks_within (dfs : list (list event)) (st : load_state) :
  (forall r, In r (concat dfs) -> row_binds binds r = true) ->
  Forall (fun b => length b <= BATCH_LIMIT)
         (executed (load_chunks session_execute st dfs)) ->
  run_chunks binds session_execute st dfs
  = Completed (load_chunks session_execute st dfs).
Proof.
  revert st. induction dfs as [|df dfs IH]; intros st B F; [reflexivity|].
  cbn [concat] in B. rewrite load_chunks_cons in F.
  assert (L : length (batch st) + 3 * length df <= BATCH_LIMIT).
  { destruct (load_chunks_executed session_execute dfs
                (process_chunk session_execute st df)) as [sent [E _]].
    rewrite E, process_chunk_spec in F. cbn [executed] in F.
    apply Forall_app in F. destruct F as [F _].
    apply Forall_app in F. destruct F as [_ F].
    inversion F as [|b l Hb _]. subst. unfold submitted in Hb.
    rewrite length_app, inserts_length in Hb. exact Hb. }
  rewrite run_chunks_cons, run_chunk_ok.
  - cbn [and_then]. rewrite load_chunks_cons. apply IH; [|exact F].
    intros r Hr. apply B, in_or_app. now right.
  - intros r Hr. apply B, in_or_app. now left.
  - exact L.
Qed.

(** The submissions of a run, however it ends, are the first submissions
    of the run in which no [batch.add] raises. *)
Lemma run_chunks_executed_prefix (dfs : list (list event)) (st : load_state) :
  exists more : list (list statement),
    executed (load_chunks session_execute st dfs)
    = executed (ended_in (run_chunks binds session_execute st dfs)) ++ more.
Proof.
  revert st. induction dfs as [|df dfs IH]; intros st.
  - exists []. cbn. now rewrite app_nil_r.
  - rewrite run_chunks_cons.
    destruct (run_chunk binds session_execute st df) as [st1|e st1] eqn:E;
      cbn [and_then].
    + apply run_chunk_completed in E. destruct E as [-> _].
      rewrite load_chunks_cons. apply IH.
    + apply run_chunk_crashed in E. destruct E as [Hx _].
      cbn [ended_in]. rewrite Hx.
      destruct (load_chunks_executed session_execute (df :: dfs) st)
        as [sent [Es _]].
      exists sent. exact Es.
Qed.

(** The statements accepted and the statements in the batch, however the
    run ends, are the first statements of the file. *)
Lemma run_chunks_conserve (dfs : list (list event)) (st : load_state) :
  let e := ended_in (run_chunks binds session_execute st dfs) in
  exists rest : list statement,
    accepted session_execute e ++ batch e ++ rest
    = (accepted session_execute st ++ batch st) ++ inserts (concat dfs).
Proof.
  cbv zeta. revert st. induction dfs as [|df dfs IH]; intros st.
  - exists []. cbn [run_chunks ended_in concat].
    change (inserts []) with (@nil statement). now rewrite !app_nil_r.
  - rewrite run_chunks_cons.
    destruct (run_chunk binds session_execute st df) as [st1|e st1] eqn:E;
      cbn [and_then].
    + apply run_chunk_completed in E. destruct E as [-> _].
      destruct (IH (process_chunk session_execute st df)) as [rest Hrest].
      exists rest. rewrite Hrest, delivered_process_chunk.
      cbn [concat]. now rewrite inserts_app, !app_assoc.
    + apply run_chunk_crashed in E. destruct E as [Hx [_ [_ [rest Hrest]]]].
      cbn [ended_in]. exists (rest ++ inserts (concat dfs)).
      unfold accepted. rewrite Hx.
      cbn [concat]. rewrite inserts_app.
      rewrite (app_assoc (batch st1)), Hrest. now rewrite !app_assoc.
Qed.

End DriverRuns.

Section DriverLimits.

Variable binds : table -> list value -> bool.
Variable session_execute : nat -> list statement -> exec_result.

(** On a store that rejects everything the batch is never emptied: once
    the inserts of the file no longer fit, the run ends on a full batch,
    after as many submissions as there are leading windows that fit. *)
Lemma run_chunks_rejecting_full (dfs : list (list event)) (st : load_state) :
  (forall call b, failed (session_execute call b) = true) ->
  (forall r, In r (concat dfs) -> row_binds binds r = true) ->
  length (batch st) <= BATCH_LIMIT ->
  BATCH_LIMIT < length (batch st) + 3 * length (concat dfs) ->
  exists st',
    run_chunks binds session_execute st dfs = Crashed BatchFull st'
    /\ length (batch st') = BATCH_LIMIT
    /\ batches st' = batches st
    /\ length (executed st')
       = length (executed st) + fitting (length (batch st)) dfs
    /\ length (stdout st')
       = length (stdout st) + 2 * fitting (length (batch st)) dfs.
Proof.
  intros Hf. revert st. induction dfs as [|df dfs IH]; intros st B L1 L2.
  - cbn [concat length] in L2. lia.
  - cbn [concat] in B, L2. rewrite length_app in L2.
    rewrite run_chunks_cons. cbn [fitting].
    destruct (Nat.leb_spec (length (batch st) + 3 * length df) BATCH_LIMIT)
      as [F|F].
    + rewrite run_chunk_ok;
        [|intros r Hr; apply B, in_or_app; now left | exact F].
      cbn [and_then].
      assert (Hb : batch (process_chunk session_execute st df)
                   = batch st ++ inserts df).
      { rewrite process_chunk_spec. cbn [batch]. unfold answer.
        now rewrite Hf. }
      assert (Hc : batches (process_chunk session_execute st df) = batches st).
      { rewrite process_chunk_spec. cbn [batches]. unfold answer.
        now rewrite Hf. }
      assert (Hx : length (executed (process_chunk session_execute st df))
                   = S (length (executed st))).
      { rewrite process_chunk_spec. cbn [executed].
        rewrite length_app. simpl. lia. }
      assert (Ho : length (stdout (process_chunk session_execute st df))
                   = length (stdout st) + 2).
      { rewrite process_chunk_spec. cbn [stdout].
        rewrite length_app, failure_report_length; [reflexivity | apply Hf]. }
      assert (Hl : length (batch (process_chunk session_execute st df))
                   = length (batch st) + 3 * length df).
      { now rewrite Hb, length_app, inserts_length. }
      destruct (IH (process_chunk session_execute st df))
        as [st' [E [Hl' [Hc' [Hx' Ho']]]]].
      * intros r Hr. apply B, in_or_app. now right.
      * lia.
      * lia.
      * exists st'. rewrite Hl in Hx', Ho'.
        repeat split; [exact E | exact Hl' | congruence | lia | lia].
    + destruct (@run_add_rows_full binds df st) as [st' [E Hl]].
      * intros r Hr. apply B, in_or_app. now left.
      * exact L1.
      * exact F.
      * assert (Ec : run_chunk binds session_execute st df = Crashed BatchFull st').
        { unfold run_chunk. now rewrite E. }
        rewrite Ec. cbn [and_then].
        apply run_chunk_crashed in Ec. destruct Ec as [Hx [Hc [Ho _]]].
        exists st'. rewrite Hx, Hc, Ho.
        repeat split; [exact Hl | lia | lia].
Qed.

End DriverLimits.

(** The number of windows of [size] records that fit, when the file does
    not. *)
Lemma fitting_chunks (size fuel : nat) (l : list event) (held : nat) :
  0 < size -> length l <= fuel ->
  held <= BATCH_LIMIT -> BATCH_LIMIT < held + 3 * length l ->
  fitting held (chunks_fuel fuel size l) = (BATCH_LIMIT - held) / (3 * size).
Proof.
  intros Hs. revert l held. induction fuel as [|fuel IH]; intros l held L H1 H2.
  - destruct l; [simpl in H2; lia | simpl in L; lia].
  - destruct l as [|a l]; [simpl in H2; lia|].
    cbn [chunks_fuel fitting]. rewrite length_firstn.
    destruct (Nat.leb_spec (held + 3 * Nat.min size (length (a :: l))) BATCH_LIMIT)
      as [F|F].
    + assert (M : Nat.min size (length (a :: l)) = size) by lia.
      rewrite M in *. rewrite IH.
      * replace (BATCH_LIMIT - held)
          with ((BATCH_LIMIT - (held + 3 * size)) + 1 * (3 * size)) by lia.
        rewrite Nat.div_add by lia. lia.
      * rewrite length_skipn. cbn [length] in *. lia.
      * exact F.
      * rewrite length_skipn. lia.
    + symmetry. apply Nat.div_small. lia.
Qed.

(** Small files never fill the batch, whatever the store answers. *)
Lemma small_file_within_limit
      (session_execute : nat -> list statement -> exec_result)
      (rows : list event) :
  3 * length rows <= BATCH_LIMIT -> within_batch_limit session_execute rows.
Proof.
  intros L. unfold within_batch_limit, load.
  assert (C : concat (read_csv CHUNK_SIZE rows) = rows).
  { apply read_csv_concat. unfold CHUNK_SIZE. lia. }
  assert (E : run_chunks bind_all session_execute (mkLoad 0 0 [] [] [])
                         (read_csv CHUNK_SIZE rows)
              = Completed (load_chunks session_execute (mkLoad 0 0 [] [] [])
                                       (read_csv CHUNK_SIZE rows))).
  { apply run_chunks_small; [reflexivity|]. rewrite C. simpl. lia. }
  apply run_chunks_completed in E. destruct E as [_ [_ F]].
  apply F; [simpl; lia | constructor].
Qed.


Lemma run_load_completed
      (binds : table -> list value -> bool)
      (session_execute : nat -> list statement -> exec_result)
      (rows : list event) (st : load_state) :
  run_load binds session_execute rows = Completed st ->
  st = load session_execute rows.
Proof.
  unfold run_load, load. intros H.
  now apply run_chunks_completed in H.
Qed.

Lemma run_load_within
      (binds : table -> list value -> bool)
      (session_execute : nat -> list statement -> exec_result)
      (rows : list event) :
  (forall r, In r rows -> row_binds binds r = true) ->
  within_batch_limit session_execute rows ->
  run_load binds session_execute rows = Completed (load session_execute rows).
Proof.
  intros B F. unfold run_load, load. apply run_chunks_within; [|exact F].
  rewrite read_csv_concat; [exact B | unfold CHUNK_SIZE; lia].
Qed.

(** The run whose first submission is rejected, with 101 records that
    bind, reaches the final [print]: it is the run in which no [batch.add]
    raises. *)
Example rejected_first_window_run_completes :
  run_load bind_all fail_first (repeat sample_event 100 ++ [other_event])
  = Completed (load fail_first (repeat sample_event 100 ++ [other_event])).
Proof.
  apply run_load_within; [reflexivity|].
  apply small_file_within_limit. rewrite length_app, repeat_length.
  unfold BATCH_LIMIT. simpl length. lia.
Qed.

Lemma run_chunks_crashed_short
      (binds : table -> list value -> bool)
      (session_execute : nat -> list statement -> exec_result)
      (dfs : list (list event)) (st st' : load_state) (e : add_error) :
  run_chunks binds session_execute st dfs = Crashed e st' ->
  length (executed st') < length (executed st) + length dfs.
Proof.
  revert st. induction dfs as [|df dfs IH]; intros st H; [discriminate H|].
  rewrite run_chunks_cons in H.
  destruct (run_chunk binds session_execute st df) as [st1|e1 st1] eqn:E;
    cbn [and_then] in H.
  - apply run_chunk_completed in E. destruct E as [-> _].
    apply IH in H. rewrite process_chunk_spec in H. cbn [executed] in H.
    rewrite length_app in H. simpl in *. lia.
  - injection H as _ <-. apply run_chunk_crashed in E.
    destruct E as [Hx _]. rewrite Hx. simpl. lia.
Qed.

Lemma accepted_from_rejecting
      (session_execute : nat -> list statement -> exec_result)
      (sent : list (list statement)) (call : nat) :
  (forall call b, failed (session_execute call b) = true) ->
  accepted_from session_execute call sent = [].
Proof.
  intros Hf. revert call. induction sent as [|b sent IH]; intros call;
    [reflexivity|].
  simpl. now rewrite Hf, IH.
Qed.

Lemma firstn_length_app (A : Type) (l rest : list A) :
  firstn (length l) (l ++ rest) = l.
Proof.
  rewrite firstn_app, firstn_all, Nat.sub_diag. simpl. apply app_nil_r.
Qed.

(** On a store that rejects every submission, a file whose records bind
    and whose inserts do not fit into one batch: the cell ends on the
    exception of a [batch.add] to a full batch. *)
Lemma rejecting_store_fills_batch
      (binds : table -> list value -> bool)
      (session_execute : nat -> list statement -> exec_result)
      (rows : list event) :
  (forall call b, failed (session_execute call b) = true) ->
  (forall r, In r rows -> row_binds binds r = true) ->
  BATCH_LIMIT < 3 * length rows ->
  exists st : load_state,
    run_load binds session_execute rows = Crashed BatchFull st
    /\ batch st = firstn BATCH_LIMIT (inserts rows)
    /\ length (batch st) = BATCH_LIMIT
    /\ batches st = 0
    /\ length (executed st) = BATCH_LIMIT / (3 * CHUNK_SIZE)
    /\ length (stdout st) = 2 * (BATCH_LIMIT / (3 * CHUNK_SIZE))
    /\ length (executed st) < length (read_csv CHUNK_SIZE rows).
Proof.
  intros Hf B L.
  assert (C : concat (read_csv CHUNK_SIZE rows) = rows).
  { apply read_csv_concat. unfold CHUNK_SIZE. lia. }
  destruct (@run_chunks_rejecting_full binds session_execute
              (read_csv CHUNK_SIZE rows) (mkLoad 0 0 [] [] []) Hf)
    as [st [E [Hl [Hb [Hx Ho]]]]].
  - now rewrite C.
  - simpl. lia.
  - rewrite C. simpl. lia.
  - cbn [batch executed stdout batches length Nat.add] in Hb, Hx, Ho.
    assert (Hfit : fitting 0 (read_csv CHUNK_SIZE rows)
                   = BATCH_LIMIT / (3 * CHUNK_SIZE)).
    { destruct rows as [|a rows]; [simpl in L; lia|].
      unfold read_csv. rewrite fitting_chunks.
      - now rewrite Nat.sub_0_r.
      - unfold CHUNK_SIZE. lia.
      - lia.
      - lia.
      - lia. }
    exists st. split; [exact E|].
    pose proof (@run_chunks_conserve binds session_execute
                  (read_csv CHUNK_SIZE rows) (mkLoad 0 0 [] [] [])) as K.
    cbv zeta in K. rewrite E in K. cbn [ended_in] in K.
    destruct K as [rest K].
    unfold accepted in K. rewrite accepted_from_rejecting in K by exact Hf.
    cbn [executed batch app accepted_from] in K. rewrite C in K.
    split.
    { rewrite <- K, <- Hl. symmetry. apply firstn_length_app. }
    split; [exact Hl|]. split; [exact Hb|].
    split; [now rewrite Hx, Hfit|]. split; [now rewrite Ho, Hfit|].
    apply run_chunks_crashed_short in E. simpl in E. exact E.
Qed.

(** ** Claims on the loader, with the exceptions of [batch.add] *)







(** ** Further properties of the loader *)

(** X9. On a store that accepts every submission, with records that the
    driver can bind, the cell reaches its final [print]; each batch holds
    exactly the inserts of its own window, three per record and in record
    order, so at most 300 statements; the batches together are the inserts
    of the file; Batches is the number of windows, nothing is printed, and
    the batch is empty at the end. *)
Theorem load_on_accepting_store
        (binds : table -> list value -> bool)
        (session_execute : nat -> list statement -> exec_result)
        (rows : list event) :
  (forall call b, session_execute call b = ExecOk) ->
  (forall r, In r rows -> row_binds binds r = true) ->
  exists st : load_state,
    run_load binds session_execute rows = Completed st
    /\ executed st = map inserts (read_csv CHUNK_SIZE rows)
    /\ Forall (fun b => length b <= 3 * CHUNK_SIZE) (executed st)
    /\ concat (executed st) = inserts rows
    /\ batches st = length (read_csv CHUNK_SIZE rows)
    /\ batch st = []
    /\ stdout st = [].
Proof.
  intros Hok B. exists (load session_execute rows).
  pose proof (@ideal_load_accepting session_execute rows Hok) as I. cbv zeta in I.
  split; [|exact I].
  apply run_load_within; [exact B|].
  destruct I as [_ [F _]]. unfold within_batch_limit.
  apply Forall_impl with (P := fun b : list statement => length b <= 3 * CHUNK_SIZE);
    [|exact F].
  intros b Hb. unfold BATCH_LIMIT, CHUNK_SIZE in *. lia.
Qed.

Lemma load_on_accepting_store_witness :
  exists st : load_state,
    run_load bind_text accept_all (repeat sample_event 100 ++ [other_event])
    = Completed st
    /\ map (@length statement) (executed st) = [300; 3].
Proof.
  destruct (@load_on_accepting_store bind_text accept_all
              (repeat sample_event 100 ++ [other_event]))
    as [st [E [X _]]].
  - reflexivity.
  - intros r Hr. apply in_app_or in Hr. destruct Hr as [Hr | [<- | []]].
    + apply repeat_spec in Hr. subst r. reflexivity.
    + reflexivity.
  - exists st. split; [exact E|]. rewrite X. reflexivity.
Defined.

(** X10. No statement is accepted twice or out of order, and none that was
    added is lost. However the cell ends, on its final [print] or on an
    exception of [batch.add], the statements of the accepted batches, in
    order, followed by the statements still in the batch, are the first
    statements of the file, three per record in file order; when the cell
    reaches its final [print] they are all the statements of the file. The
    statements still in the batch were not accepted by the store. *)
Theorem accepted_and_pending_statements
        (binds : table -> list value -> bool)
        (session_execute : nat -> list statement -> exec_result)
        (rows : list event) :
  let st := ended_in (run_load binds session_execute rows) in
  (exists rest : list statement,
      accepted session_execute st ++ batch st ++ rest = inserts rows)
  /\ ((exists st', run_load binds session_execute rows = Completed st') ->
      accepted session_execute st ++ batch st = inserts rows).
Proof.
  cbv zeta. split.
  - unfold run_load.
    destruct (@run_chunks_conserve binds session_execute
                (read_csv CHUNK_SIZE rows) (mkLoad 0 0 [] [] []))
      as [rest H].
    exists rest. rewrite H. cbn [accepted accepted_from executed batch app].
    rewrite read_csv_concat; [reflexivity | unfold CHUNK_SIZE; lia].
  - intros [st' H]. rewrite H. cbn [ended_in].
    apply run_load_completed in H. subst st'.
    unfold load. rewrite delivered_load_chunks.
    cbn [accepted accepted_from executed batch app].
    rewrite read_csv_concat; [reflexivity | unfold CHUNK_SIZE; lia].
Qed.

Lemma accepted_and_pending_statements_witness :
  accepted fail_first
           (ended_in (run_load bind_all fail_first
                               (repeat sample_event 100 ++ [other_event])))
  ++ batch (ended_in (run_load bind_all fail_first
                               (repeat sample_event 100 ++ [other_event])))
  = inserts (repeat sample_event 100 ++ [other_event]).
Proof.
  destruct (@accepted_and_pending_statements bind_all fail_first
              (repeat sample_event 100 ++ [other_event])) as [_ H].
  apply H. eexists. apply rejected_first_window_run_completes.
Defined.

(** X11. On a store that rejects every submission, with records that the
    driver can bind, nothing is ever removed from the batch. When the
    inserts of the file fit into one batch (at most 21845 records), the
    cell reaches its final [print]: submission k carries the inserts of the
    windows 0 to k together, the batch ends with the inserts of the whole
    file, Batches is 0 and two lines are printed per window. When they do
    not fit, the cell ends on the exception of a [batch.add] to a full
    batch, which then holds the first 65535 statements of the file, after
    218 rejected submissions and before the last window is submitted. *)
Theorem load_on_rejecting_store
        (binds : table -> list value -> bool)
        (session_execute : nat -> list statement -> exec_result)
        (rows : list event) :
  (forall call b, failed (session_execute call b) = true) ->
  (forall r, In r rows -> row_binds binds r = true) ->
  (3 * length rows <= BATCH_LIMIT ->
   exists st : load_state,
     run_load binds session_execute rows = Completed st
     /\ let windows := read_csv CHUNK_SIZE rows in
        executed st
        = map (fun k => inserts (concat (firstn (S k) windows)))
              (seq 0 (length windows))
        /\ batch st = inserts rows
        /\ batches st = 0
        /\ length (stdout st) = 2 * length windows)
  /\ (BATCH_LIMIT < 3 * length rows ->
      exists st : load_state,
        run_load binds session_execute rows = Crashed BatchFull st
        /\ batch st = firstn BATCH_LIMIT (inserts rows)
        /\ length (batch st) = BATCH_LIMIT
        /\ batches st = 0
        /\ length (executed st) = BATCH_LIMIT / (3 * CHUNK_SIZE)
        /\ length (stdout st) = 2 * (BATCH_LIMIT / (3 * CHUNK_SIZE))
        /\ length (executed st) < length (read_csv CHUNK_SIZE rows)).
Proof.
  intros Hf B. split.
  - intros L. exists (load session_execute rows). split.
    + apply run_load_within; [exact B|]. now apply small_file_within_limit.
    + exact (@ideal_load_rejecting session_execute rows Hf).
  - intros L.
    destruct (rejecting_store_fills_batch binds session_execute rows Hf B L)
      as [st [E [H1 [H2 [H3 [H4 [H5 H6]]]]]]].
    exists st. repeat split; assumption.
Qed.

Lemma load_on_rejecting_store_witness :
  (exists st : load_state,
      run_load bind_all fail_always (repeat sample_event 100 ++ [other_event])
      = Completed st
      /\ map (@length statement) (executed st) = [300; 303])
  /\ (exists st : load_state,
         run_load bind_all fail_always (repeat sample_event (218 * 100 + 46))
         = Crashed BatchFull st
         /\ length (executed st) = 218
         /\ length (batch st) = 218 * 300 + 135).
Proof.
  split.
  - destruct (@load_on_rejecting_store bind_all fail_always
                (repeat sample_event 100 ++ [other_event]))
      as [H _]; try reflexivity.
    destruct H as [st [E [X _]]].
    + rewrite length_app, repeat_length. unfold BATCH_LIMIT. simpl length. lia.
    + exists st. split; [exact E|]. rewrite X. reflexivity.
  - destruct (@load_on_rejecting_store bind_all fail_always
                (repeat sample_event (218 * 100 + 46)))
      as [_ H]; try reflexivity.
    destruct H as [st [E [_ [Hl [_ [Hx _]]]]]].
    + rewrite repeat_length. unfold BATCH_LIMIT. lia.
    + exists st. split; [exact E|]. split.
      * rewrite Hx. reflexivity.
      * rewrite Hl. reflexivity.
Defined.

(** X17. What each submission carries, however the cell ends and whatever
    the store answers. The first submission made carries the inserts of the
    first window. Every later submission made carries the inserts of its
    own window, preceded by the whole previous submission when that one was
    rejected, and by nothing when it was accepted. *)
Theorem submission_contents
        (binds : table -> list value -> bool)
        (session_execute : nat -> list statement -> exec_result)
        (rows : list event) :
  let st := ended_in (run_load binds session_execute rows) in
  let windows := read_csv CHUNK_SIZE rows in
  (forall b, nth_error (executed st) 0 = Some b ->
      exists df, nth_error windows 0 = Some df /\ b = inserts df)
  /\ (forall k b b',
        nth_error (executed st) k = Some b ->
        nth_error (executed st) (S k) = Some b' ->
        exists df,
          nth_error windows (S k) = Some df
          /\ b' = (if failed (session_execute k b) then b else [])
                  ++ inserts df).
Proof.
  cbv zeta. unfold run_load.
  destruct (@run_chunks_executed_prefix binds session_execute
              (read_csv CHUNK_SIZE rows) (mkLoad 0 0 [] [] []))
    as [more P].
  fold (load session_execute rows) in P.
  set (st := ended_in (run_chunks binds session_execute (mkLoad 0 0 [] [] [])
                                  (read_csv CHUNK_SIZE rows))) in *.
  pose proof (ideal_load_windows session_execute rows) as W. cbv zeta in W.
  destruct W as [Wl _].
  pose proof (ideal_submission_contents session_execute rows) as I.
  cbv zeta in I. destruct I as [I0 IS].
  assert (Up : forall k b, nth_error (executed st) k = Some b ->
                 nth_error (executed (load session_execute rows)) k = Some b).
  { intros k b H. rewrite P, nth_error_app1; [exact H|].
    apply nth_error_Some. congruence. }
  assert (Win : forall k b,
             nth_error (executed (load session_execute rows)) k = Some b ->
             exists df, nth_error (read_csv CHUNK_SIZE rows) k = Some df).
  { intros k b H.
    assert (Lk : k < length (read_csv CHUNK_SIZE rows)).
    { rewrite <- Wl. apply nth_error_Some. congruence. }
    destruct (nth_error (read_csv CHUNK_SIZE rows) k) as [df|] eqn:E;
      [eauto|]. apply nth_error_None in E. lia. }
  split.
  - intros b H. apply Up in H. destruct (Win _ _ H) as [df Hdf].
    exists df. split; [exact Hdf|].
    rewrite (I0 df Hdf) in H. now injection H.
  - intros k b b' H H'. apply Up in H. apply Up in H'.
    destruct (Win _ _ H') as [df Hdf].
    exists df. split; [exact Hdf|].
    rewrite (IS k b df H Hdf) in H'. now injection H'.
Qed.

Lemma submission_contents_witness :
  exists df : list event,
    nth_error (read_csv CHUNK_SIZE (repeat sample_event 100 ++ [other_event])) 1
    = Some df
    /\ inserts (repeat sample_event 100) ++ inserts_of other_event
       = inserts (repeat sample_event 100) ++ inserts df.
Proof.
  destruct (@submission_contents bind_all fail_first
              (repeat sample_event 100 ++ [other_event])) as [_ H].
  destruct (H 0 (inserts (repeat sample_event 100))
              (inserts (repeat sample_event 100) ++ inserts_of other_event))
    as [df [Hdf E]].
  - vm_compute. reflexivity.
  - vm_compute. reflexivity.
  - exists df. split; [exact Hdf | exact E].
Defined.
